(** * GeoInfoOverlay: metadata extraction and caption layout of [overlay.py]

    A shallow embedding of [src/overlay.py] and the properties of its
    metadata extraction ([get_date], [get_gps_coords], [reverse_geocode]),
    its caption layout ([wrap_text], [add_overlay]) and its batch loop
    ([process_image], [main]).

    Modelling conventions.
    - Python exceptions are explicit: a computation that can raise has type
      [result A]; [try ... except] is a match on the [Raise] case.
    - A Python [str] is the list of its code points; [bytes] is a list of
      [Byte.byte]; a [dict] is a stdpp [gmap].
    - The coordinates are idealised as exact rationals ([Q]): true division
      [a / b] raises [ZeroDivisionError] exactly when [b] is [0], as in
      Python, but its rounding is not modelled. The code only negates,
      prints and passes on a coordinate, and the properties stated of the
      coordinates are those that rounding leaves alone: whether a pair is
      returned, and the sign of its members.
    - The height of a resized image is truncated from a float, so there the
      rounding shows: it is computed in binary64 ([SpecFloat]), for
      dimensions as Pillow has them (C ints).
    - The collaborators (piexif, geopy, Pillow, the file system) appear as
      their outcomes: what [piexif.load] returned, what [geolocator.reverse]
      returned or raised, what [font.getbbox] measures.
    - [print] calls are not modelled. *)

From Stdlib Require Import QArith.
From Stdlib Require SpecFloat.
From Stdlib.Strings Require Import Byte.
From stdpp Require Import gmap strings list.

Local Open Scope Z_scope.

(** ** Exceptions and results *)

Inductive exn : Type :=
| AttributeError
| KeyError
| IndexError
| TypeError
| ValueError
| ZeroDivisionError
| UnicodeDecodeError
| GeocoderTimedOut
| OtherError (msg : string).

Inductive result (A : Type) : Type :=
| Ok (a : A)
| Raise (e : exn).
Arguments Ok {A} a.
Arguments Raise {A} e.

#[global] Instance result_bind : MBind result := λ A B k r,
  match r with
  | Ok a => k a
  | Raise e => Raise e
  end.

Definition is_ok {A} (r : result A) : bool :=
  match r with Ok _ => true | Raise _ => false end.

(** ** Python strings *)

Definition char := N.
Definition str := list char.

(** A string literal of the source (all of them are ASCII). *)
Definition lit (s : string) : str :=
  List.map (λ a, Ascii.N_of_ascii a) (String.list_ascii_of_string s).

(** [sep.join(parts)] *)
Fixpoint join (sep : str) (parts : list str) : str :=
  match parts with
  | [] => []
  | [p] => p
  | p :: rest => p ++ sep ++ join sep rest
  end.

(** [str.isspace] on one code point (CPython's [_PyUnicode_IsWhitespace]). *)
Definition isspace (c : char) : bool :=
  ((9 <=? c) && (c <=? 13) || (28 <=? c) && (c <=? 32)
   || (c =? 133) || (c =? 160) || (c =? 5760)
   || (8192 <=? c) && (c <=? 8202)
   || (c =? 8232) || (c =? 8233) || (c =? 8239) || (c =? 8287)
   || (c =? 12288))%N.

(** [text.split()]: maximal runs of non-whitespace characters. *)
Fixpoint split_ws_go (cur : str) (s : str) : list str :=
  match s with
  | [] => match cur with [] => [] | _ => [cur] end
  | c :: s' =>
    if isspace c then
      match cur with
      | [] => split_ws_go [] s'
      | _ => cur :: split_ws_go [] s'
      end
    else split_ws_go (cur ++ [c]) s'
  end.

Definition split_ws (s : str) : list str := split_ws_go [] s.

(** [text.strip()] *)
Fixpoint lstrip (s : str) : str :=
  match s with
  | [] => []
  | c :: s' => if isspace c then lstrip s' else s
  end.

Definition strip (s : str) : str := rev (lstrip (rev (lstrip s))).

(** [text.split(sep)] for a one-character separator: always at least one
    piece. *)
Fixpoint split_on_go (sep : char) (cur : str) (s : str) : list str :=
  match s with
  | [] => [cur]
  | c :: s' =>
    if (c =? sep)%N then cur :: split_on_go sep [] s'
    else split_on_go sep (cur ++ [c]) s'
  end.

Definition split_on (sep : char) (s : str) : list str := split_on_go sep [] s.

Definition colon : char := 58%N.
Definition newline : char := 10%N.

(** [':' in line] *)
Definition has_colon (line : str) : bool := existsb (λ c, (c =? colon)%N) line.

(** [line.split(':', 1)] on a line that contains a colon: the text before the
    first colon and the text after it. *)
Fixpoint split_colon_once (line : str) : str * str :=
  match line with
  | [] => ([], [])
  | c :: rest =>
    if (c =? colon)%N then ([], rest)
    else let '(label, content) := split_colon_once rest in (c :: label, content)
  end.

(** ** [bytes.decode('utf-8')] (strict) *)

Definition is_cont (b : N) : bool := ((128 <=? b) && (b <=? 191))%N.
Definition in_range (lo hi b : N) : bool := ((lo <=? b) && (b <=? hi))%N.

Fixpoint utf8_decode_N (bs : list N) : option str :=
  match bs with
  | [] => Some []
  | b0 :: r0 =>
    if (b0 <? 128)%N then cons b0 <$> utf8_decode_N r0
    else if in_range 194 223 b0 then
      match r0 with
      | b1 :: r1 =>
        if is_cont b1
        then cons ((b0 - 192) * 64 + (b1 - 128))%N <$> utf8_decode_N r1
        else None
      | _ => None
      end
    else if in_range 224 239 b0 then
      match r0 with
      | b1 :: b2 :: r2 =>
        if (if (b0 =? 224)%N then in_range 160 191 b1
            else if (b0 =? 237)%N then in_range 128 159 b1
            else is_cont b1) && is_cont b2
        then cons ((b0 - 224) * 4096 + (b1 - 128) * 64 + (b2 - 128))%N
               <$> utf8_decode_N r2
        else None
      | _ => None
      end
    else if in_range 240 244 b0 then
      match r0 with
      | b1 :: b2 :: b3 :: r3 =>
        if (if (b0 =? 240)%N then in_range 144 191 b1
            else if (b0 =? 244)%N then in_range 128 143 b1
            else is_cont b1) && is_cont b2 && is_cont b3
        then cons ((b0 - 240) * 262144 + (b1 - 128) * 4096
                   + (b2 - 128) * 64 + (b3 - 128))%N
               <$> utf8_decode_N r3
        else None
      | _ => None
      end
    else None
  end.

Definition decode_utf8 (b : list byte) : result str :=
  match utf8_decode_N (List.map Byte.to_N b) with
  | Some s => Ok s
  | None => Raise UnicodeDecodeError
  end.

(** The bytes of an ASCII literal, [b'...']. *)
Definition blit (s : string) : list byte := String.list_byte_of_string s.

(** ** EXIF values as piexif hands them over *)

#[global] Instance byte_eq_dec : EqDecision byte := Byte.byte_eq_dec.

#[warnings="-register-all"]
Inductive pyval : Type :=
| PNone
| PInt (z : Z)
| PBytes (b : list byte)
| PTuple (l : list pyval).

(** One IFD: tag id to value. *)
Abbreviation ifd := (gmap Z pyval).
(** What [piexif.load] returns: IFD name to IFD. *)
Abbreviation ExifDict := (gmap string (gmap Z pyval)).

(** [a[i]] *)
Definition py_index (v : pyval) (i : nat) : result pyval :=
  match v with
  | PTuple l => match l !! i with Some x => Ok x | None => Raise IndexError end
  | PBytes b =>
    match b !! i with
    | Some x => Ok (PInt (Z.of_N (Byte.to_N x)))
    | None => Raise IndexError
    end
  | _ => Raise TypeError
  end.

(** [a / b], true division. *)
Definition py_truediv (a b : pyval) : result Q :=
  match a, b with
  | PInt x, PInt y =>
    if y =? 0 then Raise ZeroDivisionError else Ok (inject_Z x / inject_Z y)%Q
  | _, _ => Raise TypeError
  end.

(** [d, m, s = value] *)
Definition py_unpack3 (v : pyval) : result (pyval * pyval * pyval) :=
  match v with
  | PTuple [d; m; s] => Ok (d, m, s)
  | PTuple _ => Raise ValueError
  | PBytes [d; m; s] =>
    Ok (PInt (Z.of_N (Byte.to_N d)), PInt (Z.of_N (Byte.to_N m)),
        PInt (Z.of_N (Byte.to_N s)))
  | PBytes _ => Raise ValueError
  | _ => Raise TypeError
  end.

(** [v != b'...'] *)
Definition py_ne_bytes (v : pyval) (b : list byte) : bool :=
  match v with
  | PBytes b' => negb (bool_decide (b' = b))
  | _ => true
  end.

(** [value.decode('utf-8')] *)
Definition py_decode (v : pyval) : result str :=
  match v with
  | PBytes b => decode_utf8 b
  | _ => Raise AttributeError
  end.

(** piexif's tag ids (the EXIF standard's numbers). [piexif.ExifIFD] has the
    attributes [DateTimeOriginal] and [DateTimeDigitized]; [DateTime] is a
    tag of the image IFD ([piexif.ImageIFD.DateTime], 306), so
    [getattr(piexif.ExifIFD, 'DateTime', None)] is [None]. *)
Module piexif.
Definition DateTimeOriginal : Z := 36867.
Definition DateTimeDigitized : Z := 36868.
Definition ExifIFD_getattr (tag : string) : option Z :=
  if String.eqb tag "DateTimeOriginal" then Some DateTimeOriginal
  else if String.eqb tag "DateTimeDigitized" then Some DateTimeDigitized
  else None.
Definition ImageIFD_DateTime : Z := 306.
Definition GPSLatitudeRef : Z := 1.
Definition GPSLatitude : Z := 2.
Definition GPSLongitudeRef : Z := 3.
Definition GPSLongitude : Z := 4.
End piexif.

(** ** get_date *)

Section GetDate.
(** [getattr(piexif.ExifIFD, tag, None)] *)
Variable ExifIFD_getattr : string → option Z.

Fixpoint get_date_loop (exif_dict : ExifDict) (tags : list string)
  : result str :=
  match tags with
  | [] => Ok (lit "Unknown Date")
  | tag :: rest =>
    match ExifIFD_getattr tag with
    | Some tag_id =>
      if tag_id =? 0 then get_date_loop exif_dict rest
      else
        match exif_dict !! "Exif"%string with
        | None => Raise KeyError
        | Some exif =>
          let date_time := default PNone (exif !! tag_id) in
          py_decode date_time
        end
    | None => get_date_loop exif_dict rest
    end
  end.

Definition get_date_with (exif_dict : ExifDict) : result str :=
  get_date_loop exif_dict
    ["DateTimeOriginal"; "DateTime"; "DateTimeDigitized"]%string.
End GetDate.

Definition get_date : ExifDict → result str :=
  get_date_with piexif.ExifIFD_getattr.

(** ** get_gps_coords *)

Definition _convert_to_degrees (value : pyval) : result Q :=
  '(d, m, s) ← py_unpack3 value ;
  d0 ← py_index d 0 ; d1 ← py_index d 1 ; dq ← py_truediv d0 d1 ;
  m0 ← py_index m 0 ; m1 ← py_index m 1 ; mq ← py_truediv m0 m1 ;
  s0 ← py_index s 0 ; s1 ← py_index s 1 ; sq ← py_truediv s0 s1 ;
  Ok (dq + mq / 60 + sq / 3600)%Q.

(** [gps_info[key]] *)
Definition dict_getitem (gps_info : ifd) (key : Z) : result pyval :=
  match gps_info !! key with
  | Some v => Ok v
  | None => Raise KeyError
  end.

(** The body of the [try] block. *)
Definition gps_coords_body (gps_info : ifd) : result (Q * Q) :=
  lat_v ← dict_getitem gps_info piexif.GPSLatitude ;
  lat ← _convert_to_degrees lat_v ;
  let lat :=
    if py_ne_bytes (default (PBytes (blit "N"))
                      (gps_info !! piexif.GPSLatitudeRef)) (blit "N")
    then (- lat)%Q else lat in
  lon_v ← dict_getitem gps_info piexif.GPSLongitude ;
  lon ← _convert_to_degrees lon_v ;
  let lon :=
    if py_ne_bytes (default (PBytes (blit "E"))
                      (gps_info !! piexif.GPSLongitudeRef)) (blit "E")
    then (- lon)%Q else lon in
  Ok (lat, lon).

Definition get_gps_coords (exif_dict : ExifDict) : result (option (Q * Q)) :=
  let gps_info : ifd := default ∅ (exif_dict !! "GPS"%string) in
  if bool_decide (gps_info = ∅) then Ok None
  else
    match gps_coords_body gps_info with
    | Ok c => Ok (Some c)
    | Raise KeyError => Ok None
    | Raise _ => Ok None
    end.

(** ** reverse_geocode *)

(** A geopy [Location]; [raw] is the service's JSON answer, of which only the
    dictionary-valued entries (['address']) are kept. *)
Record Location := { raw : gmap string (gmap string str) }.

Section ReverseGeocode.
(** [geolocator.reverse(coords, timeout=10)]: a location, [None], or an
    exception ([GeocoderTimedOut] or any other). *)
Variable geolocator_reverse : Q * Q → result (option Location).

Definition address_parts : list string :=
  ["road"; "suburb"; "city"; "state_district"; "state"; "country"]%string.

(** The body of the [try] block. *)
Definition reverse_geocode_body (coords : Q * Q) : result str :=
  location ← geolocator_reverse coords;
  match location with
  | Some location =>
    address ← match raw location !! "address"%string with
              | Some a => Ok a
              | None => Raise KeyError
              end;
    let location_parts := omap (λ part, address !! part) address_parts in
    Ok (join (lit ", ") location_parts)
  | None => Ok (lit "Unknown Location")
  end.

Definition reverse_geocode (coords : Q * Q) : result str :=
  match reverse_geocode_body coords with
  | Ok s => Ok s
  | Raise GeocoderTimedOut => Ok (lit "Location Unavailable")
  | Raise _ => Ok (lit "Location Unavailable")
  end.
End ReverseGeocode.

(** ** add_overlay *)

Definition color : Type := Z * Z * Z.

(** One [draw.text((x, y), line, font=font, fill=fill)] call. *)
Record draw_call := { dc_x : Z; dc_y : Z; dc_text : str; dc_fill : color }.

(** An image: its size, the ['exif'] entry of [img.info], and the text drawn
    on it so far. *)
Record Image := {
  img_width : Z;
  img_height : Z;
  img_info_exif : option (list byte);
  img_draws : list draw_call
}.

(** The local variables of [add_overlay] once the layout is computed. *)
Record layout := {
  wrapped_lines : list str;
  total_text_height : Z;
  anchor_x : Z;
  anchor_y : Z
}.

Definition padding : Z := 10.
Definition shadow_offset : Z := 2.

Section Layout.
(** [font.getbbox(text)]: (left, top, right, bottom). *)
Variable getbbox : str → Z * Z * Z * Z.

Definition get_text_size (text : str) : Z * Z :=
  let '(x0, y0, x1, y1) := getbbox text in (x1 - x0, y1 - y0).

(** One iteration of the loop of [wrap_text] on the state
    [(lines, current_line)]. *)
Definition wrap_step (max_width : Z) (st : list str * list str) (word : str)
  : list str * list str :=
  let '(lines, current_line) := st in
  let test_line := join (lit " ") (current_line ++ [word]) in
  let '(width, _) := get_text_size test_line in
  if width <=? max_width then (lines, current_line ++ [word])
  else
    (match current_line with
     | [] => lines
     | _ => lines ++ [join (lit " ") current_line]
     end, [word]).

Definition wrap_text (text : str) (max_width : Z) : list str :=
  let words := split_ws text in
  let '(lines, current_line) :=
    fold_left (wrap_step max_width) words ([], []) in
  match current_line with
  | [] => lines
  | _ => lines ++ [join (lit " ") current_line]
  end.

(** The body of the loop over [text_lines]: what one logical line adds to
    [wrapped_lines]. *)
Definition wrap_caption_line (max_text_width : Z) (line : str)
  : result (list str) :=
  if has_colon line then
    let '(label, content) := split_colon_once line in
    let '(label_width, _) := get_text_size (label ++ lit ": ") in
    let wrapped := wrap_text (strip content) (max_text_width - label_width) in
    match wrapped with
    | [] => Raise IndexError
    | first :: others => Ok ((label ++ lit ":" ++ first) :: others)
    end
  else Ok (wrap_text line max_text_width).

Fixpoint wrap_caption (max_text_width : Z) (text_lines : list str)
    (wrapped_lines : list str) : result (list str) :=
  match text_lines with
  | [] => Ok wrapped_lines
  | line :: rest =>
    new_lines ← wrap_caption_line max_text_width line;
    wrap_caption max_text_width rest (wrapped_lines ++ new_lines)
  end.

(** [sum(get_text_size(line)[1] for line in wrapped_lines)] *)
Definition sum_heights (lines : list str) : Z :=
  foldr (λ line acc, snd (get_text_size line) + acc) 0 lines.

(** The first part of [add_overlay], up to the anchor: the wrapped lines,
    the block height and the position of the first line. *)
Definition caption_layout (image_width image_height : Z) (text : str)
  : result layout :=
  let text_lines := split_on newline text in
  let max_text_width := image_width - padding * 4 in
  wrapped_lines ← wrap_caption max_text_width text_lines [];
  let total_text_height := sum_heights wrapped_lines in
  let total_text_height :=
    total_text_height + padding * (Z.of_nat (length wrapped_lines) - 1) in
  let x := image_width - max_text_width - padding in
  let y := image_height - total_text_height - padding * 2 in
  Ok {| wrapped_lines := wrapped_lines;
        total_text_height := total_text_height;
        anchor_x := x; anchor_y := y |}.

(** The drawing loop: shadow first, then the text, then [y] advances. *)
Fixpoint draw_lines (x y : Z) (text_color shadow_color : color)
    (lines : list str) : list draw_call :=
  match lines with
  | [] => []
  | line :: rest =>
    let '(_, height) := get_text_size line in
    {| dc_x := x + shadow_offset; dc_y := y + shadow_offset;
       dc_text := line; dc_fill := shadow_color |}
    :: {| dc_x := x; dc_y := y; dc_text := line; dc_fill := text_color |}
    :: draw_lines x (y + height + padding) text_color shadow_color rest
  end.

Definition add_overlay (image : Image) (text : str)
    (text_color shadow_color : color) : result Image :=
  l ← caption_layout (img_width image) (img_height image) text;
  Ok {| img_width := img_width image;
        img_height := img_height image;
        img_info_exif := img_info_exif image;
        img_draws := img_draws image
          ++ draw_lines (anchor_x l) (anchor_y l) text_color shadow_color
               (wrapped_lines l) |}.
End Layout.

(** ** process_image and main *)

Definition OUTPUT_FOLDER : string := "./content/outputs".
Definition FONT_SIZE : Z := 40.
Definition TEXT_COLOR : color := (255, 255, 255).
Definition SHADOW_COLOR : color := (0, 0, 0).
Definition MAX_WIDTH : Z := 2048.
Definition SUPPORTED_EXTENSIONS : list string :=
  [".jpg"; ".jpeg"; ".png"; ".tiff"; ".bmp"; ".gif"]%string.

(** [file.lower()] on a file name. *)
Definition ascii_lower (a : Ascii.ascii) : Ascii.ascii :=
  let n := Ascii.N_of_ascii a in
  if ((65 <=? n) && (n <=? 90))%N then Ascii.ascii_of_N (n + 32) else a.

Definition lower (s : string) : list Ascii.ascii :=
  List.map ascii_lower (String.list_ascii_of_string s).

(** [name.endswith(extensions)] with a tuple of suffixes. *)
Definition endswith (name : list Ascii.ascii) (extensions : list string) : bool :=
  existsb (λ ext, bool_decide (String.list_ascii_of_string ext `suffix_of` name))
    extensions.

(** Python's [float] is IEEE 754 binary64, rounding to nearest, ties to
    even. The operations below are those of the resize step, on the
    dimensions of an image: Pillow keeps these as C ints, which convert to
    floats exactly, so the [OverflowError] that Python raises on an integer
    beyond the float range, or on an infinity given to [int], has no place
    here and the operations are total. *)
Definition float : Type := SpecFloat.spec_float.
Definition float_prec : Z := 53.
Definition float_emax : Z := 1024.

(** [float(n)] of an [int]. *)
Definition float_of_int (n : Z) : float :=
  SpecFloat.binary_normalize float_prec float_emax n 0 false.

(** [x / y] and [x * y] on floats; the divisor of the resize step, a width
    above [MAX_WIDTH], is not zero. *)
Definition float_truediv (x y : float) : float :=
  SpecFloat.SFdiv float_prec float_emax x y.
Definition float_mul (x y : float) : float :=
  SpecFloat.SFmul float_prec float_emax x y.

(** [int(x)]: the float with its fraction cut off. *)
Definition int_of_float (x : float) : Z :=
  match x with
  | SpecFloat.S754_finite s m e =>
    let magnitude := if 0 <=? e then Z.pos m * 2 ^ e else Z.pos m / 2 ^ (- e) in
    if s then - magnitude else magnitude
  | _ => 0
  end.

(** The height given to [img.resize]:
    [ratio = MAX_WIDTH / float(img.width)] and
    [new_height = int(float(img.height) * ratio)]. *)
Definition new_height (width height : Z) : Z :=
  let ratio := float_truediv (float_of_int MAX_WIDTH) (float_of_int width) in
  int_of_float (float_mul (float_of_int height) ratio).

(** What the collaborators do for one input file. *)
Record file_env := {
  fe_file : string;               (* the name yielded by os.walk *)
  fe_relative_path : string;      (* os.path.relpath(input_path, INPUT_FOLDER) *)
  fe_output_dir_error : option exn;       (* os.makedirs(output_dir) of main raises *)
  fe_piexif_load : result ExifDict;       (* piexif.load(image_path) *)
  fe_image_open : result Image;           (* Image.open(image_path) *)
  fe_resize_error : option exn;           (* img.resize raises *)
  fe_makedirs_error : option exn;         (* os.makedirs of process_image raises *)
  fe_save_error : option exn              (* img_with_overlay.save raises *)
}.

Record output_file := {
  out_path : string;
  out_image : Image;
  out_exif : option (list byte)
}.

Inductive job_outcome : Type :=
| Skipped
| Failed (e : exn)
| Saved (out : output_file).

Definition raise_if (e : option exn) : result unit :=
  match e with
  | Some e => Raise e
  | None => Ok ()
  end.

Section Pipeline.
Variable getbbox : str → Z * Z * Z * Z.
Variable geolocator_reverse : Q * Q → result (option Location).
(** [str(x)] of a float. *)
Variable repr_float : Q → str.

Definition get_exif_data (f : file_env) : option ExifDict :=
  match fe_piexif_load f with
  | Ok exif_dict => Some exif_dict
  | Raise _ => None
  end.

(** [f"{coords}"] *)
Definition format_coords (coords : option (Q * Q)) : str :=
  match coords with
  | None => lit "None"
  | Some (lat, lon) =>
    lit "(" ++ repr_float lat ++ lit ", " ++ repr_float lon ++ lit ")"
  end.

Definition caption_text (date : str) (coords : option (Q * Q))
    (location : str) : str :=
  lit "Date and Time: " ++ date ++ [newline]
  ++ lit "Lattitude, Longitude: " ++ format_coords coords ++ [newline]
  ++ lit "Location: " ++ location.

(** The body of the [try] block of [process_image]. *)
Definition render_and_save (f : file_env) (output_path : string)
    (text : str) : result output_file :=
  img ← fe_image_open f;
  img ← (if MAX_WIDTH <? img_width img then
           let new_height := new_height (img_width img) (img_height img) in
           _ ← raise_if (fe_resize_error f);
           Ok {| img_width := MAX_WIDTH; img_height := new_height;
                 img_info_exif := img_info_exif img;
                 img_draws := img_draws img |}
         else Ok img);
  let img_with_overlay := img in
  img_with_overlay ←
    add_overlay getbbox img_with_overlay text TEXT_COLOR SHADOW_COLOR;
  _ ← raise_if (fe_makedirs_error f);
  _ ← raise_if (fe_save_error f);
  Ok {| out_path := output_path; out_image := img_with_overlay;
        out_exif := img_info_exif img |}.

Definition process_image (f : file_env) (output_path : string)
  : result job_outcome :=
  match get_exif_data f with
  | None => Ok Skipped
  | Some exif_data =>
    if bool_decide (exif_data = ∅) then Ok Skipped
    else
      date ← get_date exif_data;
      coords ← get_gps_coords exif_data;
      location ← match coords with
                 | Some c => reverse_geocode geolocator_reverse c
                 | None => Ok (lit "Unknown Location")
                 end;
      let text := caption_text date coords location in
      match render_and_save f output_path text with
      | Ok out => Ok (Saved out)
      | Raise e => Ok (Failed e)
      end
  end.

(** The loop of [main] over the walked files. The result is the outcome of
    every job that ran, in order, and the exception that ended the run, if
    there was one: [os.makedirs(output_dir)] and [process_image] are called
    outside any [try]. *)
Fixpoint main_loop (files : list file_env)
  : list (string * job_outcome) * option exn :=
  match files with
  | [] => ([], None)
  | f :: rest =>
    if endswith (lower (fe_file f)) SUPPORTED_EXTENSIONS then
      let output_path :=
        (OUTPUT_FOLDER +:+ "/" +:+ fe_relative_path f)%string in
      match raise_if (fe_output_dir_error f) with
      | Raise e => ([], Some e)
      | Ok _ =>
        match process_image f output_path with
        | Ok outcome =>
          let '(jobs, escaped) := main_loop rest in
          ((fe_relative_path f, outcome) :: jobs, escaped)
        | Raise e => ([], Some e)
        end
      end
    else main_loop rest
  end.

(** [main]: [input_folder_exists] is [os.path.exists(INPUT_FOLDER)],
    [output_folder_error] what [os.makedirs(OUTPUT_FOLDER)] raised, if it
    did, and [files] the files of [os.walk(INPUT_FOLDER)] in order. *)
Definition main (input_folder_exists : bool)
    (output_folder_error : option exn) (files : list file_env)
  : list (string * job_outcome) * option exn :=
  if input_folder_exists then
    match raise_if output_folder_error with
    | Raise e => ([], Some e)
    | Ok _ => main_loop files
    end
  else ([], None).
End Pipeline.

(** * Vocabulary of the properties *)

(** ** Coordinates *)

(** A value that [_convert_to_degrees] can use as one rational: indexable at
    0 and 1, with an integer numerator and a non-zero integer denominator. *)
Definition rational_ok (r : pyval) : Prop :=
  ∃ n d, py_index r 0 = Ok (PInt n) ∧ py_index r 1 = Ok (PInt d) ∧ d ≠ 0.

(** A complete degrees, minutes, seconds triple. *)
Definition triple_ok (v : pyval) : Prop :=
  ∃ d m s, py_unpack3 v = Ok (d, m, s)
    ∧ rational_ok d ∧ rational_ok m ∧ rational_ok s.

(** The EXIF encoding of a rational and of a triple of rationals. *)
Definition rational (n d : Z) : pyval := PTuple [PInt n; PInt d].
Definition dms (d0 d1 m0 m1 s0 s1 : Z) : pyval :=
  PTuple [rational d0 d1; rational m0 m1; rational s0 s1].

(** deg + min/60 + sec/3600 *)
Definition dms_value (d0 d1 m0 m1 s0 s1 : Z) : Q :=
  (inject_Z d0 / inject_Z d1 + inject_Z m0 / inject_Z m1 / 60
   + inject_Z s0 / inject_Z s1 / 3600)%Q.

(** The hemisphere test: a reference tag that is present and is not the
    positive symbol. An absent tag counts as the positive symbol. *)
Definition negated (ref : option pyval) (positive : list byte) : bool :=
  match ref with
  | None => false
  | Some v => py_ne_bytes v positive
  end.

(** The value with the sign of its hemisphere. *)
Definition signed (neg : bool) (q : Q) : Q := if neg then (- q)%Q else q.

(** ** Place names *)

(** The two sentinels of place resolution. *)
Definition LOCATION_UNAVAILABLE : str := lit "Location Unavailable".
Definition UNKNOWN_LOCATION : str := lit "Unknown Location".

(** ** Caption lines *)

(** The string is empty or all whitespace. *)
Definition blank (s : str) : bool := forallb isspace s.

(** The two sides of the first colon of a line. *)
Definition label_of (line : str) : str := fst (split_colon_once line).
Definition content_of (line : str) : str := snd (split_colon_once line).

(** The line has no colon, or some character after its first colon is not
    whitespace. *)
Definition line_has_content (line : str) : bool :=
  negb (has_colon line) || negb (blank (content_of line)).

(** Every logical line of the caption has content. *)
Definition caption_ok (text : str) : bool :=
  forallb line_has_content (split_on newline text).

(** A word: not empty and free of whitespace. *)
Definition is_word (w : str) : bool :=
  match w with
  | [] => false
  | _ => forallb (λ c, negb (isspace c)) w
  end.

(** The text contains a line break. *)
Definition has_newline (s : str) : bool := existsb (λ c, (c =? newline)%N) s.

(** ** The batch *)

(** The file passes the extension filter of [main]. *)
Definition supported (f : file_env) : bool :=
  endswith (lower (fe_file f)) SUPPORTED_EXTENSIONS.

(** Where [main] writes the file of relative path [rel]. *)
Definition output_path_of (rel : string) : string :=
  (OUTPUT_FOLDER +:+ "/" +:+ rel)%string.

(** ** Floats *)

(** The sign bit of a float; a NaN is given none. *)
Definition sign_bit (x : float) : bool :=
  match x with
  | SpecFloat.S754_zero s | SpecFloat.S754_infinity s
  | SpecFloat.S754_finite s _ _ => s
  | SpecFloat.S754_nan => false
  end.

(** ** Greedy wrapping *)

Section WrapSpec.
Variable getbbox : str → Z * Z * Z * Z.
Variable max_width : Z.

(** The measured width of a string. *)
Definition text_width (s : str) : Z := fst (get_text_size getbbox s).

(** The words of a line, joined as [wrap_text] joins them. *)
Definition line_of (g : list str) : str := join (lit " ") g.

(** Every tentative line that was accepted fits: a prefix of two or more
    words of a group measures at most [max_width]. *)
Definition prefix_fits (groups : list (list str)) : Prop :=
  ∀ g p, g ∈ groups → p `prefix_of` g → (2 ≤ length p)%nat →
    text_width (line_of p) ≤ max_width.

(** A group ends where the next word overflows: the group with the first
    word of the following group appended measures more than [max_width]. *)
Definition overflow_adj (groups : list (list str)) : Prop :=
  ∀ i g1 g2 w, groups !! i = Some g1 → groups !! S i = Some g2 →
    head g2 = Some w → max_width < text_width (line_of (g1 ++ [w])).

(** The state [(lines, current_line)] of the loop after the words [pre],
    described by the groups of words formed so far, the last of which is
    the current line. *)
Definition wrap_inv (pre : list str) (st : list str * list str)
    (groups : list (list str)) : Prop :=
  concat groups = pre
  ∧ Forall (λ g, g ≠ []) groups
  ∧ prefix_fits groups
  ∧ overflow_adj groups
  ∧ ((st = ([], []) ∧ groups = [])
     ∨ ∃ closed, st.2 ≠ [] ∧ groups = closed ++ [st.2]
         ∧ st.1 = List.map line_of closed).
End WrapSpec.

(** * Example inputs *)

(** The tags of a JPEG file that carries a [DateTime] tag in its image IFD
    and nothing in its Exif IFD. *)
Definition exif_datetime_only : ExifDict :=
  {[ "0th"%string :=
       {[ piexif.ImageIFD_DateTime := PBytes (blit "2021:06:04 14:22:01") ]};
     "Exif"%string := ∅;
     "GPS"%string := ∅ ]}.

(** The tags of a file whose Exif IFD holds [DateTimeDigitized] only. *)
Definition exif_digitized_only : ExifDict :=
  {[ "0th"%string := ∅;
     "Exif"%string :=
       {[ piexif.DateTimeDigitized := PBytes (blit "2021:06:04 14:22:01") ]};
     "GPS"%string := ∅ ]}.

(** The tags of a file with no timestamp at all. *)
Definition exif_no_timestamp : ExifDict :=
  {[ "0th"%string := ∅; "Exif"%string := ∅; "GPS"%string := ∅ ]}.

(** A GPS block with both triples and no reference tag. *)
Definition gps_no_reference : ifd :=
  {[ piexif.GPSLatitude := dms 40 1 0 1 0 1;
     piexif.GPSLongitude := dms 74 1 0 1 0 1 ]}.

(** The tags of a file with that GPS block. *)
Definition exif_no_reference : ExifDict :=
  {[ "Exif"%string := ∅; "GPS"%string := gps_no_reference ]}.

(** The end-to-end scenario: 40 N, 74 W, taken on 2022:01:01 10:00:00. *)
Definition gps_new_york : ifd :=
  {[ piexif.GPSLatitudeRef := PBytes (blit "N");
     piexif.GPSLatitude := dms 40 1 0 1 0 1;
     piexif.GPSLongitudeRef := PBytes (blit "W");
     piexif.GPSLongitude := dms 74 1 0 1 0 1 ]}.

Definition exif_new_york : ExifDict :=
  {[ "Exif"%string :=
       {[ piexif.DateTimeOriginal := PBytes (blit "2022:01:01 10:00:00") ]};
     "GPS"%string := gps_new_york ]}.


(** Stubs of the geocoding service. *)
Definition geocoder_returns (location : option Location)
  : Q * Q → result (option Location) := λ _, Ok location.
Definition geocoder_raises (e : exn)
  : Q * Q → result (option Location) := λ _, Raise e.

(** A successful answer whose address holds a postcode and none of the six
    fields. *)
Definition location_postcode_only : Location :=
  {| raw := {[ "address"%string := {[ "postcode"%string := lit "10001" ]} ]} |}.

Definition location_new_york : Location :=
  {| raw := {[ "address"%string :=
                 {[ "city"%string := lit "New York";
                    "country"%string := lit "USA" ]} ]} |}.

(** Undecodable bytes in [DateTimeOriginal]. *)
Definition exif_bad_utf8 : ExifDict :=
  {[ "Exif"%string := {[ piexif.DateTimeOriginal := PBytes [xff] ]} ]}.

(** A font metric for examples: every character is 10 wide and 12 high. *)
Definition fixed_pitch (s : str) : Z * Z * Z * Z :=
  (0, 0, 10 * Z.of_nat (length s), 12).

(** An image with nothing drawn on it and no EXIF block. *)
Definition blank_canvas (w h : Z) : Image :=
  {| img_width := w; img_height := h; img_info_exif := None; img_draws := [] |}.

(** A stand-in for the float formatter. *)
Definition repr_stub : Q → str := λ _, lit "0.0".

(** A readable photo whose EXIF block has no [DateTimeOriginal]. *)
Definition file_without_timestamp : file_env :=
  {| fe_file := "a.jpg"; fe_relative_path := "a.jpg";
     fe_piexif_load := Ok exif_no_timestamp;
     fe_image_open := Ok (blank_canvas 640 480);
     fe_output_dir_error := None;
     fe_resize_error := None; fe_makedirs_error := None;
     fe_save_error := None |}.

(** A photo with a timestamp and no GPS block. *)
Definition valid_file : file_env :=
  {| fe_file := "b.JPG"; fe_relative_path := "b.JPG";
     fe_piexif_load :=
       Ok {[ "Exif"%string :=
               {[ piexif.DateTimeOriginal :=
                    PBytes (blit "2022:01:01 10:00:00") ]};
             "GPS"%string := ∅ ]};
     fe_image_open := Ok (blank_canvas 640 480);
     fe_output_dir_error := None;
     fe_resize_error := None; fe_makedirs_error := None;
     fe_save_error := None |}.

(** The photo of the end-to-end scenario. *)
Definition new_york_file : file_env :=
  {| fe_file := "d.jpeg"; fe_relative_path := "trip/d.jpeg";
     fe_piexif_load := Ok exif_new_york;
     fe_image_open := Ok (blank_canvas 640 480);
     fe_output_dir_error := None;
     fe_resize_error := None; fe_makedirs_error := None;
     fe_save_error := None |}.

(** A photo twice as wide as [MAX_WIDTH]. *)
Definition wide_file : file_env :=
  {| fe_file := "wide.jpg"; fe_relative_path := "wide.jpg";
     fe_piexif_load := fe_piexif_load valid_file;
     fe_image_open := Ok (blank_canvas 4096 3000);
     fe_output_dir_error := None;
     fe_resize_error := None; fe_makedirs_error := None;
     fe_save_error := None |}.

(** A photo a little wider than [MAX_WIDTH]: 561 * 2048 / 2244 is 512, and
    is 511.99999999999994 in binary64. *)
Definition panorama_file : file_env :=
  {| fe_file := "pano.jpg"; fe_relative_path := "pano.jpg";
     fe_piexif_load := fe_piexif_load valid_file;
     fe_image_open := Ok (blank_canvas 2244 561);
     fe_output_dir_error := None;
     fe_resize_error := None; fe_makedirs_error := None;
     fe_save_error := None |}.


(** A file that the image library cannot open. *)
Definition corrupt_image : file_env :=
  {| fe_file := "c.png"; fe_relative_path := "c.png";
     fe_piexif_load := fe_piexif_load valid_file;
     fe_image_open := Raise (OtherError "cannot identify image file");
     fe_output_dir_error := None;
     fe_resize_error := None; fe_makedirs_error := None;
     fe_save_error := None |}.

(** * Properties *)

(** ** Inversion of the exception monad *)

Lemma bind_Ok_inv {A B} (r : result A) (k : A → result B) (b : B) :
  r ≫= k = Ok b → ∃ a, r = Ok a ∧ k a = Ok b.
Proof. destruct r as [a|e]; [by exists a | discriminate]. Qed.

Lemma bind_Ok {A B} (r : result A) (k : A → result B) (a : A) :
  r = Ok a → r ≫= k = k a.
Proof. by intros ->. Qed.

Ltac inv_bind H :=
  repeat match type of H with
  | _ ≫= _ = Ok _ =>
    let a := fresh "a" in
    let Ha := fresh "Ha" in
    apply bind_Ok_inv in H as (a & Ha & H)
  end.

(** ** Timestamp extraction *)

(** What [get_date] computes with piexif's tag table: only the first tag of
    the priority list is ever looked at. *)
Lemma get_date_unfold (exif_dict : ExifDict) :
  get_date exif_dict =
  match exif_dict !! "Exif"%string with
  | None => Raise KeyError
  | Some exif => py_decode (default PNone (exif !! piexif.DateTimeOriginal))
  end.
Proof. reflexivity. Qed.

(** The same holds for any attribute table that knows [DateTimeOriginal]:
    the loop returns or raises in its first iteration. *)
Lemma get_date_first_tag_only (ExifIFD_getattr : string → option Z)
    (tag_id : Z) (exif_dict : ExifDict) :
  ExifIFD_getattr "DateTimeOriginal"%string = Some tag_id →
  tag_id ≠ 0 →
  get_date_with ExifIFD_getattr exif_dict =
  match exif_dict !! "Exif"%string with
  | None => Raise KeyError
  | Some exif => py_decode (default PNone (exif !! tag_id))
  end.
Proof.
  intros Htag Hid%Z.eqb_neq. unfold get_date_with. simpl.
  by rewrite Htag, Hid.
Qed.

(** A present [DateTimeOriginal] is returned as decoded, with no
    reformatting. *)
Lemma get_date_original (exif_dict : ExifDict) (exif : ifd) (b : list byte)
    (s : str) :
  exif_dict !! "Exif"%string = Some exif →
  exif !! piexif.DateTimeOriginal = Some (PBytes b) →
  decode_utf8 b = Ok s →
  get_date exif_dict = Ok s.
Proof. intros He Hb Hs. rewrite get_date_unfold, He, Hb. exact Hs. Qed.

(** Whenever [DateTimeOriginal] is absent the function raises, whatever the
    other tags are: the fallback is never reached. *)
Lemma get_date_absent (exif_dict : ExifDict) (exif : ifd) :
  exif_dict !! "Exif"%string = Some exif →
  exif !! piexif.DateTimeOriginal = None →
  get_date exif_dict = Raise AttributeError.
Proof. intros He Hb. by rewrite get_date_unfold, He, Hb. Qed.

Lemma get_date_Ok_inv (exif_dict : ExifDict) (s : str) :
  get_date exif_dict = Ok s →
  ∃ exif b, exif_dict !! "Exif"%string = Some exif
    ∧ exif !! piexif.DateTimeOriginal = Some (PBytes b)
    ∧ decode_utf8 b = Ok s.
Proof.
  rewrite get_date_unfold.
  destruct (exif_dict !! "Exif"%string) as [exif|] eqn:He; [|discriminate].
  destruct (exif !! piexif.DateTimeOriginal) as [[| z | b | l]|] eqn:Hb;
    try discriminate.
  intros Hs. by exists exif, b.
Qed.

(** C1. Timestamp extraction is meant to probe [DateTimeOriginal],
    [DateTime], [DateTimeDigitized] in that order, to return the first one
    present and to return "Unknown Date" when none is. The code returns from
    inside the first iteration without testing the tag's value: with
    [DateTimeOriginal] absent it raises [AttributeError], whether [DateTime]
    is present, [DateTimeDigitized] is present, or none is. *)
Theorem get_date_raises_without_original :
  get_date exif_datetime_only = Raise AttributeError
  ∧ get_date exif_digitized_only = Raise AttributeError
  ∧ get_date exif_no_timestamp = Raise AttributeError.
Proof. repeat split; vm_compute; reflexivity. Qed.

(** ** Coordinate extraction *)

Lemma py_truediv_Ok_inv (a b : pyval) (q : Q) :
  py_truediv a b = Ok q → ∃ n d, a = PInt n ∧ b = PInt d ∧ d ≠ 0.
Proof.
  destruct a as [| n | |], b as [| d | |]; try discriminate.
  simpl. destruct (Z.eqb_spec d 0); [discriminate|]. by exists n, d.
Qed.

Lemma rational_ok_intro (r a b : pyval) (q : Q) :
  py_index r 0 = Ok a → py_index r 1 = Ok b → py_truediv a b = Ok q →
  rational_ok r.
Proof.
  intros H0 H1 (n & d & -> & -> & Hd)%py_truediv_Ok_inv. by exists n, d.
Qed.

Lemma convert_Ok_inv (value : pyval) (q : Q) :
  _convert_to_degrees value = Ok q → triple_ok value.
Proof.
  unfold _convert_to_degrees. intros H.
  apply bind_Ok_inv in H as ([[d m] s] & Hu & H). inv_bind H.
  exists d, m, s. eauto 10 using rational_ok_intro.
Qed.

Lemma convert_triple_ok (value : pyval) :
  triple_ok value → ∃ q, _convert_to_degrees value = Ok q.
Proof.
  intros (d & m & s & Hu & (dn & dd & Hd0 & Hd1 & Hd) & (mn & md & Hm0 & Hm1 & Hm)
          & (sn & sd & Hs0 & Hs1 & Hs)).
  unfold _convert_to_degrees. rewrite Hu. simpl.
  rewrite Hd0, Hd1, Hm0, Hm1, Hs0, Hs1. simpl.
  apply Z.eqb_neq in Hd, Hm, Hs. rewrite Hd, Hm, Hs. simpl. eauto.
Qed.

Lemma convert_dms (d0 d1 m0 m1 s0 s1 : Z) :
  d1 ≠ 0 → m1 ≠ 0 → s1 ≠ 0 →
  _convert_to_degrees (dms d0 d1 m0 m1 s0 s1)
  = Ok (dms_value d0 d1 m0 m1 s0 s1).
Proof.
  intros Hd%Z.eqb_neq Hm%Z.eqb_neq Hs%Z.eqb_neq.
  unfold _convert_to_degrees, dms, rational. simpl.
  by rewrite Hd, Hm, Hs.
Qed.

(** A zero denominator anywhere in the triple is a [ZeroDivisionError]. *)
Lemma convert_zero_denominator (d0 d1 m0 m1 s0 s1 : Z) :
  d1 = 0 ∨ m1 = 0 ∨ s1 = 0 →
  _convert_to_degrees (dms d0 d1 m0 m1 s0 s1) = Raise ZeroDivisionError.
Proof.
  unfold _convert_to_degrees, dms, rational. simpl.
  destruct (Z.eqb_spec d1 0); [done|].
  destruct (Z.eqb_spec m1 0); [done|].
  destruct (Z.eqb_spec s1 0); [done|]. by intros [?|[?|?]].
Qed.

Lemma gps_coords_body_unfold (gps_info : ifd) :
  gps_coords_body gps_info =
  (lat_v ← dict_getitem gps_info piexif.GPSLatitude;
   lat ← _convert_to_degrees lat_v;
   lon_v ← dict_getitem gps_info piexif.GPSLongitude;
   lon ← _convert_to_degrees lon_v;
   Ok (signed (negated (gps_info !! piexif.GPSLatitudeRef) (blit "N")) lat,
       signed (negated (gps_info !! piexif.GPSLongitudeRef) (blit "E")) lon)).
Proof.
  unfold gps_coords_body, signed, negated.
  destruct (dict_getitem gps_info piexif.GPSLatitude); [simpl|done].
  destruct (_convert_to_degrees a); [simpl|done].
  destruct (dict_getitem gps_info piexif.GPSLongitude); [simpl|done].
  destruct (_convert_to_degrees a1); [simpl|done].
  by destruct (gps_info !! piexif.GPSLatitudeRef),
    (gps_info !! piexif.GPSLongitudeRef).
Qed.

(** The [try]/[except] of [get_gps_coords]: an error of the body is "no
    coordinate". *)
Lemma get_gps_coords_unfold (exif_dict : ExifDict) :
  get_gps_coords exif_dict =
  let gps_info : ifd := default ∅ (exif_dict !! "GPS"%string) in
  if bool_decide (gps_info = ∅) then Ok None
  else match gps_coords_body gps_info with
       | Ok c => Ok (Some c)
       | Raise _ => Ok None
       end.
Proof.
  unfold get_gps_coords. simpl. case_bool_decide; [done|].
  by destruct (gps_coords_body _) as [c|[]].
Qed.

(** Coordinate extraction never raises. *)
Lemma get_gps_coords_total (exif_dict : ExifDict) :
  ∃ r, get_gps_coords exif_dict = Ok r.
Proof.
  rewrite get_gps_coords_unfold. simpl. case_bool_decide; [eauto|].
  destruct (gps_coords_body _); eauto.
Qed.

Lemma gps_coords_body_Ok_inv (gps_info : ifd) (c : Q * Q) :
  gps_coords_body gps_info = Ok c →
  ∃ (lat_v lon_v : pyval) (lat lon : Q),
    gps_info !! piexif.GPSLatitude = Some lat_v
    ∧ gps_info !! piexif.GPSLongitude = Some lon_v
    ∧ _convert_to_degrees lat_v = Ok lat
    ∧ _convert_to_degrees lon_v = Ok lon
    ∧ c = (signed (negated (gps_info !! piexif.GPSLatitudeRef) (blit "N")) lat,
           signed (negated (gps_info !! piexif.GPSLongitudeRef) (blit "E")) lon).
Proof.
  rewrite gps_coords_body_unfold. intros Hb.
  apply bind_Ok_inv in Hb as (lat_v & Hlat_v & Hb).
  apply bind_Ok_inv in Hb as (lat & Hlat & Hb).
  apply bind_Ok_inv in Hb as (lon_v & Hlon_v & Hb).
  apply bind_Ok_inv in Hb as (lon & Hlon & Hb).
  unfold dict_getitem in Hlat_v, Hlon_v.
  destruct (gps_info !! piexif.GPSLatitude) as [v1|] eqn:H1; [|discriminate].
  destruct (gps_info !! piexif.GPSLongitude) as [v2|] eqn:H2; [|discriminate].
  injection Hlat_v as ->. injection Hlon_v as ->. injection Hb as <-.
  by exists lat_v, lon_v, lat, lon.
Qed.

(** A missing triple, or a triple that is not complete, gives "no
    coordinate". *)
Lemma gps_coords_incomplete (exif_dict : ExifDict) (gps_info : ifd) :
  exif_dict !! "GPS"%string = Some gps_info →
  (∀ v, gps_info !! piexif.GPSLatitude = Some v → ¬ triple_ok v)
  ∨ (∀ v, gps_info !! piexif.GPSLongitude = Some v → ¬ triple_ok v) →
  get_gps_coords exif_dict = Ok None.
Proof.
  intros Hg Hbad. rewrite get_gps_coords_unfold, Hg. simpl.
  case_bool_decide; [done|].
  destruct (gps_coords_body gps_info) as [c|e] eqn:Hb; [|done].
  apply gps_coords_body_Ok_inv
    in Hb as (lat_v & lon_v & lat & lon & H1 & H2 & Hc1 & Hc2 & _).
  apply convert_Ok_inv in Hc1, Hc2.
  destruct Hbad as [Hbad|Hbad]; [by destruct (Hbad _ H1)|by destruct (Hbad _ H2)].
Qed.

(** An absent or empty GPS block is "no coordinate". *)
Lemma gps_coords_no_block (exif_dict : ExifDict) :
  exif_dict !! "GPS"%string = None ∨ exif_dict !! "GPS"%string = Some ∅ →
  get_gps_coords exif_dict = Ok None.
Proof. rewrite get_gps_coords_unfold. by intros [->| ->]. Qed.

(** C4, as stated, fails: with both reference characters missing the
    quadruples are incomplete, and a coordinate is returned all the same
    (the references default to the positive hemisphere). *)
Lemma gps_coords_without_reference :
  gps_no_reference !! piexif.GPSLatitudeRef = None
  ∧ gps_no_reference !! piexif.GPSLongitudeRef = None
  ∧ get_gps_coords exif_no_reference
    = Ok (Some (dms_value 40 1 0 1 0 1, dms_value 74 1 0 1 0 1)).
Proof. repeat split. Qed.

(** C4, amended. Coordinate extraction either yields "no coordinate" or
    yields a pair read from a GPS block in which both the latitude and the
    longitude triple are present and complete: three components, each with an
    integer numerator and a non-zero integer denominator. The reference
    characters are not required: an absent one counts as the positive
    hemisphere. *)
Theorem gps_coords_only_from_complete_triples (exif_dict : ExifDict) :
  get_gps_coords exif_dict = Ok None
  ∨ ∃ (gps_info : ifd) (lat_v lon_v : pyval) (lat lon : Q),
      exif_dict !! "GPS"%string = Some gps_info
      ∧ gps_info !! piexif.GPSLatitude = Some lat_v
      ∧ gps_info !! piexif.GPSLongitude = Some lon_v
      ∧ triple_ok lat_v ∧ triple_ok lon_v
      ∧ _convert_to_degrees lat_v = Ok lat
      ∧ _convert_to_degrees lon_v = Ok lon
      ∧ get_gps_coords exif_dict
        = Ok (Some
            (signed (negated (gps_info !! piexif.GPSLatitudeRef) (blit "N")) lat,
             signed (negated (gps_info !! piexif.GPSLongitudeRef) (blit "E")) lon)).
Proof.
  rewrite get_gps_coords_unfold. simpl.
  destruct (exif_dict !! "GPS"%string) as [gps_info|] eqn:Hg; simpl;
    [|by left].
  case_bool_decide; [by left|].
  destruct (gps_coords_body gps_info) as [c|e] eqn:Hb; [|by left].
  right.
  apply gps_coords_body_Ok_inv
    in Hb as (lat_v & lon_v & lat & lon & H1 & H2 & Hc1 & Hc2 & ->).
  exists gps_info, lat_v, lon_v, lat, lon.
  eauto 10 using convert_Ok_inv.
Qed.

(** ** The hemisphere rule *)


Lemma get_gps_coords_dms (exif_dict : ExifDict) (gps_info : ifd)
    (d0 d1 m0 m1 s0 s1 e0 e1 f0 f1 g0 g1 : Z) :
  exif_dict !! "GPS"%string = Some gps_info →
  gps_info !! piexif.GPSLatitude = Some (dms d0 d1 m0 m1 s0 s1) →
  gps_info !! piexif.GPSLongitude = Some (dms e0 e1 f0 f1 g0 g1) →
  d1 ≠ 0 → m1 ≠ 0 → s1 ≠ 0 → e1 ≠ 0 → f1 ≠ 0 → g1 ≠ 0 →
  get_gps_coords exif_dict
  = Ok (Some
      (signed (negated (gps_info !! piexif.GPSLatitudeRef) (blit "N"))
         (dms_value d0 d1 m0 m1 s0 s1),
       signed (negated (gps_info !! piexif.GPSLongitudeRef) (blit "E"))
         (dms_value e0 e1 f0 f1 g0 g1))).
Proof.
  intros Hg Hlat Hlon ? ? ? ? ? ?.
  rewrite get_gps_coords_unfold, Hg. simpl.
  case_bool_decide as Hempty; [by rewrite Hempty in Hlat|].
  rewrite gps_coords_body_unfold. unfold dict_getitem.
  rewrite Hlat, Hlon. simpl.
  by rewrite !convert_dms.
Qed.




(** The coordinate of the end-to-end scenario: (40.0, -74.0). *)
Example new_york_coords :
  ∃ lat lon, get_gps_coords exif_new_york = Ok (Some (lat, lon))
    ∧ (lat == 40)%Q ∧ (lon == - (74))%Q.
Proof. eexists _, _. split; [reflexivity|]. split; reflexivity. Qed.

(** ** Place resolution *)

Lemma reverse_geocode_unfold geolocator_reverse (coords : Q * Q) :
  reverse_geocode geolocator_reverse coords =
  match reverse_geocode_body geolocator_reverse coords with
  | Ok s => Ok s
  | Raise _ => Ok LOCATION_UNAVAILABLE
  end.
Proof.
  unfold reverse_geocode.
  by destruct (reverse_geocode_body _ _) as [s|[]].
Qed.

(** Place resolution never raises. *)
Lemma reverse_geocode_total geolocator_reverse (coords : Q * Q) :
  ∃ s, reverse_geocode geolocator_reverse coords = Ok s.
Proof.
  rewrite reverse_geocode_unfold.
  destruct (reverse_geocode_body _ _); eauto.
Qed.

Lemma reverse_geocode_error geolocator_reverse (coords : Q * Q) (e : exn) :
  geolocator_reverse coords = Raise e →
  reverse_geocode geolocator_reverse coords = Ok LOCATION_UNAVAILABLE.
Proof.
  intros H. rewrite reverse_geocode_unfold.
  unfold reverse_geocode_body. by rewrite H.
Qed.

Lemma reverse_geocode_no_result geolocator_reverse (coords : Q * Q) :
  geolocator_reverse coords = Ok None →
  reverse_geocode geolocator_reverse coords = Ok UNKNOWN_LOCATION.
Proof.
  intros H. rewrite reverse_geocode_unfold.
  unfold reverse_geocode_body. by rewrite H.
Qed.

(** On a location with an address, the present fields are joined in the
    fixed order. *)
Lemma reverse_geocode_address geolocator_reverse (coords : Q * Q)
    (location : Location) (address : gmap string str) :
  geolocator_reverse coords = Ok (Some location) →
  raw location !! "address"%string = Some address →
  reverse_geocode geolocator_reverse coords
  = Ok (join (lit ", ") (omap (λ part, address !! part) address_parts)).
Proof.
  intros H Ha. rewrite reverse_geocode_unfold.
  unfold reverse_geocode_body. rewrite H. simpl. by rewrite Ha.
Qed.

(** With none of the six fields in the address, the result is the empty
    string. *)
Lemma reverse_geocode_no_usable_field geolocator_reverse (coords : Q * Q)
    (location : Location) (address : gmap string str) :
  geolocator_reverse coords = Ok (Some location) →
  raw location !! "address"%string = Some address →
  Forall (λ part, address !! part = None) address_parts →
  reverse_geocode geolocator_reverse coords = Ok [].
Proof.
  intros H Ha Hnone. rewrite (reverse_geocode_address _ _ _ _ H Ha).
  replace (omap (λ part, address !! part) address_parts) with (@nil str);
    [done|].
  induction Hnone as [|part parts Hpart _ IH]; [done|].
  simpl. by rewrite Hpart.
Qed.

Example reverse_geocode_new_york (coords : Q * Q) :
  reverse_geocode (geocoder_returns (Some location_new_york)) coords
  = Ok (lit "New York, USA").
Proof. reflexivity. Qed.

(** C3. Place resolution returns "Location Unavailable" on a timeout and on
    any other error, and "Unknown Location" when the service has no result;
    but on a successful answer whose address has none of the six fields it
    returns the empty string, where "Unknown Location" is expected. *)
Theorem reverse_geocode_empty_address :
  (∀ coords,
     reverse_geocode (geocoder_returns (Some location_postcode_only)) coords
     = Ok [])
  ∧ [] ≠ UNKNOWN_LOCATION
  ∧ (∀ coords,
       reverse_geocode (geocoder_raises GeocoderTimedOut) coords
       = Ok LOCATION_UNAVAILABLE)
  ∧ (∀ e coords,
       reverse_geocode (geocoder_raises e) coords = Ok LOCATION_UNAVAILABLE)
  ∧ (∀ coords,
       reverse_geocode (geocoder_returns None) coords = Ok UNKNOWN_LOCATION).
Proof.
  split; [done|]. split; [done|]. split; [done|].
  split; [|done]. intros e coords. by apply reverse_geocode_error with e.
Qed.

(** C5. Coordinate extraction and place resolution always return a value,
    but timestamp extraction does not: it raises [AttributeError] when
    [DateTimeOriginal] is absent (and [UnicodeDecodeError] on bytes that are
    not UTF-8), so it is not total. *)
Theorem get_date_not_total :
  get_date exif_no_timestamp = Raise AttributeError
  ∧ get_date exif_bad_utf8 = Raise UnicodeDecodeError
  ∧ (∀ exif_dict : ExifDict, ∃ r, get_gps_coords exif_dict = Ok r)
  ∧ (∀ geolocator_reverse coords,
       ∃ s, reverse_geocode geolocator_reverse coords = Ok s).
Proof.
  split; [done|]. split; [done|].
  split; [apply get_gps_coords_total | apply reverse_geocode_total].
Qed.

(** ** Strings: whitespace, split and strip *)

Lemma blank_app (s t : str) : blank (s ++ t) = blank s && blank t.
Proof. apply forallb_app. Qed.

Lemma blank_cons (c : char) (s : str) : blank (c :: s) = isspace c && blank s.
Proof. reflexivity. Qed.

Lemma blank_rev (s : str) : blank (rev s) = blank s.
Proof.
  induction s as [|c s IH]; [done|].
  simpl. rewrite blank_app, IH, !blank_cons.
  rewrite andb_true_r. apply andb_comm.
Qed.

Lemma blank_lstrip (s : str) : blank (lstrip s) = blank s.
Proof.
  induction s as [|c s IH]; [done|].
  rewrite blank_cons. simpl. destruct (isspace c) eqn:Hc; [done|].
  by rewrite blank_cons, Hc.
Qed.

Lemma blank_strip (s : str) : blank (strip s) = blank s.
Proof.
  unfold strip. by rewrite blank_rev, blank_lstrip, blank_rev, blank_lstrip.
Qed.

Lemma split_ws_go_nil (cur s : str) :
  split_ws_go cur s = [] ↔ cur = [] ∧ blank s = true.
Proof.
  revert cur. induction s as [|c s IH]; intros cur;
    [|rewrite blank_cons]; simpl.
  - destruct cur; split; try done. by intros [? _].
  - destruct (isspace c) eqn:Hc; simpl.
    + destruct cur as [|c' cur].
      * rewrite IH. split; intros [? ?]; done.
      * split; [done | by intros [? _]].
    + rewrite IH. split; [|by intros [_ ?]].
      intros [Hnil _]. by destruct cur.
Qed.

(** [text.split()] has no word exactly when the text is blank. *)
Lemma split_ws_nil (s : str) : split_ws s = [] ↔ blank s = true.
Proof.
  unfold split_ws. rewrite split_ws_go_nil. split; [by intros [_ ?] | done].
Qed.

Lemma split_ws_strip_nil (s : str) : split_ws (strip s) = [] ↔ blank s = true.
Proof. by rewrite split_ws_nil, blank_strip. Qed.

Lemma split_on_go_app (sep : char) (cur a b : str) :
  split_on_go sep cur (a ++ sep :: b)
  = split_on_go sep cur a ++ split_on sep b.
Proof.
  revert cur. induction a as [|c a IH]; intros cur; simpl.
  - by rewrite N.eqb_refl.
  - destruct (c =? sep)%N; [|by apply IH].
    simpl. f_equal. apply IH.
Qed.

(** Splitting at a separator splits on both sides of it. *)
Lemma split_on_app (sep : char) (a b : str) :
  split_on sep (a ++ sep :: b) = split_on sep a ++ split_on sep b.
Proof. apply split_on_go_app. Qed.

(** [line.split(':', 1)] cuts at the first colon. *)
Lemma split_colon_once_spec (line label content : str) :
  has_colon line = true →
  split_colon_once line = (label, content) →
  line = label ++ colon :: content ∧ has_colon label = false.
Proof.
  revert label content. induction line as [|c line IH];
    intros label content; [done|].
  simpl. destruct (c =? colon)%N eqn:Hc; simpl.
  - intros _ [= <- <-]. apply N.eqb_eq in Hc as ->. done.
  - intros Hin. destruct (split_colon_once line) as [label' content'].
    intros [= <- <-]. destruct (IH label' content' Hin eq_refl) as [-> Hl].
    simpl. by rewrite Hc.
Qed.

Lemma prefix_snoc_inv {A} (p l : list A) (x : A) :
  p `prefix_of` l ++ [x] → p `prefix_of` l ∨ p = l ++ [x].
Proof.
  intros [k Hk]. destruct k as [|y k _] using rev_ind.
  - right. by rewrite app_nil_r in Hk.
  - left. rewrite app_assoc in Hk. apply app_inj_tail in Hk as [-> _].
    by exists k.
Qed.

Lemma lookup_snoc_cases {A} (l : list A) (x y : A) (i : nat) :
  (l ++ [x]) !! i = Some y →
  ((i < length l)%nat ∧ l !! i = Some y) ∨ (i = length l ∧ y = x).
Proof.
  intros H. destruct (decide (i < length l)%nat) as [Hlt|Hge].
  - left. by rewrite lookup_app_l in H.
  - right. rewrite lookup_app_r in H by lia.
    destruct (i - length l)%nat as [|n] eqn:Hn; [|done].
    injection H as <-. split; [lia|done].
Qed.

(** ** Word wrapping *)

Section WrapText.
Variable getbbox : str → Z * Z * Z * Z.
Variable max_width : Z.

Lemma wrap_step_unfold (lines current_line : list str) (word : str) :
  wrap_step getbbox max_width (lines, current_line) word =
  if text_width getbbox (line_of (current_line ++ [word])) <=? max_width
  then (lines, current_line ++ [word])
  else (match current_line with
        | [] => lines
        | _ => lines ++ [line_of current_line]
        end, [word]).
Proof.
  unfold wrap_step, text_width, line_of.
  by destruct (get_text_size getbbox _).
Qed.

Lemma prefix_fits_single (w : str) : prefix_fits getbbox max_width [[w]].
Proof.
  intros g p ->%list_elem_of_singleton Hp%prefix_length Hlen.
  simpl in Hp. lia.
Qed.

Lemma overflow_adj_single (g : list str) : overflow_adj getbbox max_width [g].
Proof. intros i g1 g2 w _ H. by destruct i. Qed.

Lemma prefix_fits_new_group (groups : list (list str)) (w : str) :
  prefix_fits getbbox max_width groups → prefix_fits getbbox max_width (groups ++ [[w]]).
Proof.
  intros HG g p [Hg| ->%list_elem_of_singleton]%elem_of_app Hp Hlen.
  - by apply (HG g p).
  - by apply (prefix_fits_single w [w] p); [left|..].
Qed.

Lemma prefix_fits_grow (closed : list (list str)) (cur : list str) (w : str) :
  prefix_fits getbbox max_width (closed ++ [cur]) →
  text_width getbbox (line_of (cur ++ [w])) ≤ max_width →
  prefix_fits getbbox max_width (closed ++ [cur ++ [w]]).
Proof.
  intros HG Hfit g p [Hg| ->%list_elem_of_singleton]%elem_of_app Hp Hlen.
  - apply (HG g p); [|done..]. apply elem_of_app. by left.
  - apply prefix_snoc_inv in Hp as [Hp| ->]; [|done].
    apply (HG cur p); [|done..]. apply elem_of_app. right. by left.
Qed.

Lemma overflow_adj_new_group (closed : list (list str)) (cur : list str)
    (w : str) :
  overflow_adj getbbox max_width (closed ++ [cur]) →
  max_width < text_width getbbox (line_of (cur ++ [w])) →
  overflow_adj getbbox max_width ((closed ++ [cur]) ++ [[w]]).
Proof.
  intros HG Hover i g1 g2 w' H1 H2 Hw.
  apply lookup_snoc_cases in H2 as [[Hlt H2]|[Hi ->]].
  - rewrite lookup_app_l in H1 by lia. by apply (HG i g1 g2 w').
  - injection Hw as <-.
    rewrite lookup_app_l in H1 by lia.
    rewrite length_app in Hi. simpl in Hi.
    rewrite lookup_app_r in H1 by lia.
    replace (i - length closed)%nat with 0%nat in H1 by lia.
    by injection H1 as <-.
Qed.

Lemma overflow_adj_grow (closed : list (list str)) (cur : list str) (w : str) :
  cur ≠ [] →
  overflow_adj getbbox max_width (closed ++ [cur]) →
  overflow_adj getbbox max_width (closed ++ [cur ++ [w]]).
Proof.
  intros Hcur HG i g1 g2 w' H1 H2 Hw.
  apply lookup_snoc_cases in H2 as [[Hlt H2]|[Hi ->]].
  - rewrite lookup_app_l in H1 by lia.
    apply (HG i g1 g2 w'); [| |done]; by rewrite lookup_app_l by lia.
  - rewrite lookup_app_l in H1 by lia.
    apply (HG i g1 cur w'); [by rewrite lookup_app_l by lia|..].
    + rewrite lookup_app_r by lia.
      by replace (S i - length closed)%nat with 0%nat by lia.
    + by destruct cur.
Qed.

(** One iteration of the loop keeps the description. *)
Lemma wrap_step_inv (pre : list str) (st : list str * list str)
    (groups : list (list str)) (word : str) :
  wrap_inv getbbox max_width pre st groups →
  ∃ groups', wrap_inv getbbox max_width (pre ++ [word])
               (wrap_step getbbox max_width st word) groups'.
Proof.
  intros (Hcat & Hne & Hfits & Hadj & Hst).
  destruct st as [lines cur]. rewrite wrap_step_unfold.
  destruct Hst as [[[= -> ->] ->]|(closed & Hcur & -> & Hlines)];
    simpl in *.
  - (* the first word *)
    exists [[word]]. subst pre.
    assert (wrap_inv getbbox max_width ([] ++ [word]) ([], [word]) [[word]]) as Hinv.
    { split; [done|]. split; [by repeat constructor|].
      split; [apply prefix_fits_single|].
      split; [apply overflow_adj_single|].
      right. by exists []. }
    by destruct (_ <=? _).
  - subst lines pre.
    destruct (Z.leb_spec (text_width getbbox (line_of (cur ++ [word]))) max_width)
      as [Hfit|Hover].
    + (* the word joins the current line *)
      exists (closed ++ [cur ++ [word]]).
      split; [by rewrite !concat_app; simpl; rewrite !app_nil_r, app_assoc|].
      split.
      { apply Forall_app in Hne as [Hne _]. apply Forall_app.
        split; [done|]. constructor; [by destruct cur|done]. }
      split; [by apply prefix_fits_grow|].
      split; [by apply overflow_adj_grow|].
      right. exists closed. split; [by destruct cur|done].
    + (* the word starts a new line *)
      exists ((closed ++ [cur]) ++ [[word]]).
      split; [by rewrite (concat_app (closed ++ [cur]))|].
      split; [apply Forall_app; split; [done|by repeat constructor]|].
      split; [by apply prefix_fits_new_group|].
      split; [by apply overflow_adj_new_group|].
      right. exists (closed ++ [cur]). simpl. split; [done|]. split; [done|].
      rewrite map_app. by destruct cur.
Qed.

Lemma wrap_loop_inv (words pre : list str) (st : list str * list str)
    (groups : list (list str)) :
  wrap_inv getbbox max_width pre st groups →
  ∃ groups', wrap_inv getbbox max_width (pre ++ words)
               (fold_left (wrap_step getbbox max_width) words st) groups'.
Proof.
  revert pre st groups. induction words as [|word words IH];
    intros pre st groups Hinv; simpl.
  - exists groups. by rewrite app_nil_r.
  - destruct (wrap_step_inv pre st groups word Hinv) as [groups' Hinv'].
    destruct (IH _ _ _ Hinv') as [groups'' Hinv''].
    exists groups''. by rewrite <-app_assoc in Hinv''.
Qed.

(** [wrap_text] cuts the words of the text into consecutive non-empty
    groups, greedily, and returns each group joined with single spaces. *)
Lemma wrap_text_partition (text : str) :
  ∃ groups : list (list str),
    wrap_text getbbox text max_width = List.map line_of groups
    ∧ concat groups = split_ws text
    ∧ Forall (λ g, g ≠ []) groups
    ∧ prefix_fits getbbox max_width groups
    ∧ overflow_adj getbbox max_width groups.
Proof.
  assert (wrap_inv getbbox max_width [] ([], []) []) as Hinit.
  { split; [done|]. split; [done|]. split; [by intros g p ?%elem_of_nil|].
    split; [by intros [|i] ? ? ? ?|]. by left. }
  destruct (wrap_loop_inv (split_ws text) _ _ _ Hinit)
    as (groups & Hcat & Hne & Hfits & Hadj & Hst).
  exists groups. unfold wrap_text.
  destruct (fold_left _ _ _) as [lines cur].
  split; [|done].
  destruct Hst as [[[= -> ->] ->]|(closed & Hcur & -> & Hlines)];
    simpl in *; [done|].
  subst lines. rewrite map_app. by destruct cur.
Qed.

(** No line is returned exactly when the text has no word. *)
Lemma wrap_text_nil (text : str) :
  wrap_text getbbox text max_width = [] ↔ blank text = true.
Proof.
  rewrite <-split_ws_nil.
  destruct (wrap_text_partition text) as (groups & -> & <- & Hne & _).
  destruct groups as [|g groups]; [done|].
  apply Forall_cons in Hne as [Hg _]. by destruct g.
Qed.
End WrapText.

Lemma length_join_elem (sep w : str) (g : list str) :
  w ∈ g → (length w ≤ length (join sep g))%nat.
Proof.
  induction g as [|a g IH]; [by intros ?%elem_of_nil|].
  intros [->|Hw]%elem_of_cons.
  - destruct g; simpl; [done|]. rewrite length_app. lia.
  - specialize (IH Hw). destruct g as [|b g]; [by apply elem_of_nil in Hw|].
    change (join sep (a :: b :: g)) with (a ++ sep ++ join sep (b :: g)).
    rewrite !length_app. lia.
Qed.

(** With the fixed-pitch metric a line is at least as wide as each of its
    words. *)
Lemma fixed_pitch_monotone (g : list str) (w : str) :
  w ∈ g → text_width fixed_pitch w ≤ text_width fixed_pitch (line_of g).
Proof.
  intros Hw%(length_join_elem (lit " ")).
  unfold text_width, get_text_size, fixed_pitch, line_of. simpl. lia.
Qed.

(** C7. Greedy word wrapping. [wrap_text] cuts the words of the text, whole
    and in order, into non-empty groups and returns each group joined by
    single spaces. A word joins the current line as long as the tentative
    line measures at most the usable width, and the first word that
    overflows starts the next line. Hence, when every word alone measures at
    most the usable width, so does every returned line; and when the font
    measures a line at least as wide as each of its words, a word wider than
    the usable width is alone on its line. *)
Theorem wrap_text_lines_fit (getbbox : str → Z * Z * Z * Z) (text : str)
    (max_width : Z) :
  ∃ groups : list (list str),
    wrap_text getbbox text max_width = List.map line_of groups
    ∧ concat groups = split_ws text
    ∧ Forall (λ g, g ≠ []) groups
    ∧ prefix_fits getbbox max_width groups
    ∧ overflow_adj getbbox max_width groups
    ∧ (Forall (λ w, text_width getbbox w ≤ max_width) (split_ws text) →
       Forall (λ l, text_width getbbox l ≤ max_width)
         (wrap_text getbbox text max_width))
    ∧ ((∀ g w, w ∈ g →
          text_width getbbox w ≤ text_width getbbox (line_of g)) →
       ∀ g w, g ∈ groups → w ∈ g → max_width < text_width getbbox w →
         g = [w]).
Proof.
  destruct (wrap_text_partition getbbox max_width text)
    as (groups & Heq & Hcat & Hne & Hfits & Hadj).
  exists groups. do 5 (split; [done|]). split.
  - intros Hwords. rewrite Heq. apply List.Forall_map, Forall_forall.
    intros g Hg. destruct g as [|w [|w' g]].
    + by rewrite Forall_forall in Hne; destruct (Hne [] Hg).
    + rewrite Forall_forall in Hwords. apply Hwords.
      rewrite <-Hcat. apply list_elem_of_In, in_concat.
      exists [w]. split; [by apply list_elem_of_In | by left].
    + apply (Hfits (w :: w' :: g) (w :: w' :: g)); [done..|simpl; lia].
  - intros Hmono g w Hg Hw Hwide. destruct g as [|a [|b g]].
    + by apply elem_of_nil in Hw.
    + by apply list_elem_of_singleton in Hw as ->.
    + specialize (Hmono _ _ Hw).
      assert (text_width getbbox (line_of (a :: b :: g)) ≤ max_width).
      { apply (Hfits (a :: b :: g) (a :: b :: g)); [done..|simpl; lia]. }
      lia.
Qed.

Lemma wrap_text_lines_fit_example :
  Forall (λ l, text_width fixed_pitch l ≤ 50)
    (wrap_text fixed_pitch (lit "aa bb cc") 50)
  ∧ ∃ groups,
      wrap_text fixed_pitch (lit "a looooooong b") 50 = List.map line_of groups
      ∧ Forall (λ g, lit "looooooong" ∈ g → g = [lit "looooooong"]) groups.
Proof.
  split.
  - destruct (wrap_text_lines_fit fixed_pitch (lit "aa bb cc") 50)
      as (groups & _ & _ & _ & _ & _ & Hfit & _).
    apply Hfit. repeat constructor; vm_compute; discriminate.
  - destruct (wrap_text_lines_fit fixed_pitch (lit "a looooooong b") 50)
      as (groups & Heq & _ & _ & _ & _ & _ & Hwide).
    exists groups. split; [exact Heq|].
    apply Forall_forall. intros g Hg Hin.
    apply (Hwide fixed_pitch_monotone g _ Hg Hin). reflexivity.
Defined.

Example wrap_text_example :
  wrap_text fixed_pitch (lit "a looooooong b  cc") 50
  = [lit "a"; lit "looooooong"; lit "b cc"].
Proof. reflexivity. Qed.

(** ** Caption lines *)

Lemma wrap_caption_line_unfold (getbbox : str → Z * Z * Z * Z)
    (max_text_width : Z) (line : str) :
  wrap_caption_line getbbox max_text_width line =
  if has_colon line then
    match wrap_text getbbox (strip (content_of line))
            (max_text_width
             - text_width getbbox (label_of line ++ lit ": ")) with
    | [] => Raise IndexError
    | first :: others => Ok ((label_of line ++ lit ":" ++ first) :: others)
    end
  else Ok (wrap_text getbbox line max_text_width).
Proof.
  unfold wrap_caption_line, label_of, content_of, text_width.
  destruct (has_colon line); [|done].
  destruct (split_colon_once line) as [label content]. simpl.
  by destruct (get_text_size getbbox _).
Qed.

(** C8. A caption line with a colon is cut once, at its first colon, into
    label and content; the content is wrapped into the usable width less the
    measured width of the label followed by ": "; the label and the colon are
    put back in front of the first wrapped segment only, and the other
    segments are kept as they are. *)
Theorem label_on_first_segment_only (getbbox : str → Z * Z * Z * Z)
    (max_text_width : Z) (line label content first : str)
    (others : list str) :
  has_colon line = true →
  split_colon_once line = (label, content) →
  wrap_text getbbox (strip content)
    (max_text_width - text_width getbbox (label ++ lit ": "))
  = first :: others →
  line = label ++ colon :: content
  ∧ has_colon label = false
  ∧ wrap_caption_line getbbox max_text_width line
    = Ok ((label ++ lit ":" ++ first) :: others).
Proof.
  intros Hcolon Hsplit Hwrap.
  destruct (split_colon_once_spec line label content Hcolon Hsplit)
    as [Hline Hlabel].
  split; [done|]. split; [done|].
  rewrite wrap_caption_line_unfold, Hcolon.
  unfold label_of, content_of. rewrite Hsplit. simpl. by rewrite Hwrap.
Qed.

Lemma label_on_first_segment_only_example :
  wrap_caption_line fixed_pitch 160 (lit "Location: New York, USA and more")
  = Ok [lit "Location:New"; lit "York,"; lit "USA"; lit "and"; lit "more"].
Proof.
  apply (label_on_first_segment_only fixed_pitch 160
           (lit "Location: New York, USA and more")
           (lit "Location") (lit " New York, USA and more")
           (lit "New") [lit "York,"; lit "USA"; lit "and"; lit "more"]);
    reflexivity.
Defined.

(** ** Vertical placement *)

Lemma caption_layout_Ok_inv (getbbox : str → Z * Z * Z * Z)
    (image_width image_height : Z) (text : str) (l : layout) :
  caption_layout getbbox image_width image_height text = Ok l →
  ∃ lines,
    wrap_caption getbbox (image_width - padding * 4)
      (split_on newline text) [] = Ok lines
    ∧ l = {| wrapped_lines := lines;
             total_text_height :=
               sum_heights getbbox lines
               + padding * (Z.of_nat (length lines) - 1);
             anchor_x := image_width - (image_width - padding * 4) - padding;
             anchor_y :=
               image_height
               - (sum_heights getbbox lines
                  + padding * (Z.of_nat (length lines) - 1))
               - padding * 2 |}.
Proof.
  unfold caption_layout. intros H.
  apply bind_Ok_inv in H as (lines & Hlines & [= <-]). by exists lines.
Qed.

(** The wrapped lines of a caption are what its logical lines contribute,
    in order. *)
Lemma wrap_caption_concat (getbbox : str → Z * Z * Z * Z)
    (max_text_width : Z) (text_lines wrapped lines : list str) :
  wrap_caption getbbox max_text_width text_lines wrapped = Ok lines →
  ∃ per_line,
    Forall2 (λ line new_lines,
               wrap_caption_line getbbox max_text_width line = Ok new_lines)
      text_lines per_line
    ∧ lines = wrapped ++ concat per_line.
Proof.
  revert wrapped. induction text_lines as [|line text_lines IH];
    intros wrapped; simpl.
  - intros [= <-]. exists []. by rewrite app_nil_r.
  - intros H. apply bind_Ok_inv in H as (new_lines & Hline & H).
    destruct (IH _ H) as (per_line & Hall & ->).
    exists (new_lines :: per_line). split; [by constructor|].
    simpl. by rewrite app_assoc.
Qed.

(** C9, as stated, fails: the block of an empty caption is not of height
    zero. The formula gives 0 + padding * (0 - 1) = -10. *)
Lemma empty_caption_height :
  ∃ l, caption_layout fixed_pitch 640 480 [] = Ok l
    ∧ wrapped_lines l = []
    ∧ total_text_height l = -10
    ∧ total_text_height l ≠ 0.
Proof. eexists. split; [reflexivity|]. by repeat split. Qed.

(** C9, amended. The total block height is the sum of the measured heights
    of the wrapped lines plus padding * (lineCount - 1), and the anchor is
    y = imageHeight - totalHeight - 2 * padding. An empty caption yields no
    wrapped line, the total height -padding that the formula gives for zero
    lines, the anchor y = imageHeight - padding, and no draw call. *)
Theorem caption_block_height (getbbox : str → Z * Z * Z * Z)
    (image : Image) (text : str) (text_color shadow_color : color)
    (l : layout) :
  caption_layout getbbox (img_width image) (img_height image) text = Ok l →
  total_text_height l
  = sum_heights getbbox (wrapped_lines l)
    + padding * (Z.of_nat (length (wrapped_lines l)) - 1)
  ∧ anchor_y l = img_height image - total_text_height l - 2 * padding
  ∧ anchor_x l = img_width image - (img_width image - 4 * padding) - padding
  ∧ (text = [] →
     wrapped_lines l = []
     ∧ total_text_height l = - padding
     ∧ anchor_y l = img_height image - padding
     ∧ add_overlay getbbox image text text_color shadow_color = Ok image).
Proof.
  intros Hl.
  destruct (caption_layout_Ok_inv _ _ _ _ _ Hl) as (lines & Hlines & ->).
  simpl. split; [done|]. split; [lia|]. split; [lia|].
  intros ->. injection Hlines as <-. simpl.
  split; [done|]. split; [unfold padding; lia|].
  split; [unfold padding; lia|].
  unfold add_overlay. rewrite Hl. simpl. rewrite app_nil_r. by destruct image.
Qed.

Lemma caption_block_height_example :
  (∃ l, caption_layout fixed_pitch 200 100 (lit "hello world") = Ok l
     ∧ wrapped_lines l = [lit "hello world"]
     ∧ total_text_height l = 12
     ∧ anchor_y l = 68)
  ∧ add_overlay fixed_pitch (blank_canvas 640 480) []
      TEXT_COLOR SHADOW_COLOR
    = Ok (blank_canvas 640 480).
Proof.
  split.
  - eexists. split; [reflexivity|]. split; [reflexivity|].
    destruct (caption_block_height fixed_pitch (blank_canvas 200 100)
                (lit "hello world") TEXT_COLOR SHADOW_COLOR _ eq_refl)
      as (Hheight & Hanchor & _).
    split; [exact Hheight | exact Hanchor].
  - destruct (caption_block_height fixed_pitch (blank_canvas 640 480)
                [] TEXT_COLOR SHADOW_COLOR _ eq_refl)
      as (_ & _ & _ & Hempty).
    by destruct (Hempty eq_refl) as (_ & _ & _ & Hdraw).
Defined.

(** ** When the layout completes *)

Lemma wrap_caption_line_spec (getbbox : str → Z * Z * Z * Z)
    (max_text_width : Z) (line : str) :
  if line_has_content line
  then ∃ lines, wrap_caption_line getbbox max_text_width line = Ok lines
  else wrap_caption_line getbbox max_text_width line = Raise IndexError.
Proof.
  rewrite wrap_caption_line_unfold. unfold line_has_content.
  destruct (has_colon line); simpl; [|eauto].
  destruct (wrap_text _ _ _) as [|first others] eqn:Hwrap.
  - apply wrap_text_nil in Hwrap. rewrite blank_strip in Hwrap.
    by rewrite Hwrap.
  - destruct (blank (content_of line)) eqn:Hblank; simpl; [|eauto].
    rewrite <-blank_strip in Hblank.
    by rewrite (proj2 (wrap_text_nil getbbox _ _) Hblank) in Hwrap.
Qed.

Lemma wrap_caption_spec (getbbox : str → Z * Z * Z * Z) (max_text_width : Z)
    (text_lines wrapped : list str) :
  if forallb line_has_content text_lines
  then ∃ lines,
         wrap_caption getbbox max_text_width text_lines wrapped = Ok lines
  else wrap_caption getbbox max_text_width text_lines wrapped
       = Raise IndexError.
Proof.
  revert wrapped. induction text_lines as [|line text_lines IH];
    intros wrapped; simpl; [eauto|].
  pose proof (wrap_caption_line_spec getbbox max_text_width line) as Hline.
  destruct (line_has_content line); simpl.
  - destruct Hline as [lines ->]. simpl. apply IH.
  - rewrite Hline. simpl. done.
Qed.

Lemma caption_text_last_line repr_float (date : str) (coords : option (Q * Q))
    (location : str) :
  ∃ before,
    split_on newline (caption_text repr_float date coords location)
    = before ++ split_on newline (lit "Location: " ++ location).
Proof.
  unfold caption_text.
  exists (split_on newline
            (lit "Date and Time: " ++ date ++ [newline]
             ++ lit "Lattitude, Longitude: " ++ format_coords repr_float coords)).
  rewrite <-split_on_app. f_equal.
  by rewrite <-!app_assoc.
Qed.

(** With an empty place name the caption ends in the line "Location: ",
    which has no content. *)
Lemma caption_ok_empty_location repr_float (date : str)
    (coords : option (Q * Q)) :
  caption_ok (caption_text repr_float date coords []) = false.
Proof.
  unfold caption_ok.
  destruct (caption_text_last_line repr_float date coords []) as [before ->].
  rewrite forallb_app. apply andb_false_iff. by right.
Qed.

Lemma add_overlay_spec (getbbox : str → Z * Z * Z * Z) (image : Image)
    (text : str) (text_color shadow_color : color) :
  if caption_ok text
  then ∃ image', add_overlay getbbox image text text_color shadow_color
                 = Ok image'
  else add_overlay getbbox image text text_color shadow_color
       = Raise IndexError.
Proof.
  unfold add_overlay, caption_layout, caption_ok.
  pose proof (wrap_caption_spec getbbox (img_width image - padding * 4)
                (split_on newline text) []) as Hwrap.
  destruct (forallb line_has_content (split_on newline text)).
  - destruct Hwrap as [lines ->]. simpl. eauto.
  - by rewrite Hwrap.
Qed.

(** C10. The layout completes exactly on the captions in which every
    logical line with a colon has a non-blank content after its first colon.
    On any other caption the wrap of the content is empty and reading its
    first segment raises [IndexError]. Such a caption is reachable: when the
    service answers with an address that has none of the six fields, place
    resolution returns the empty string, the caption ends in the line
    "Location: ", and the layout raises. *)
Theorem add_overlay_needs_content (getbbox : str → Z * Z * Z * Z)
    (image : Image) (text : str) (text_color shadow_color : color) :
  (caption_ok text = true →
   ∃ image', add_overlay getbbox image text text_color shadow_color
             = Ok image')
  ∧ (caption_ok text = false →
     add_overlay getbbox image text text_color shadow_color
     = Raise IndexError)
  ∧ (∀ geolocator_reverse (coords : Q * Q) (location : Location)
       (address : gmap string str) (repr_float : Q → str) (date : str),
       geolocator_reverse coords = Ok (Some location) →
       raw location !! "address"%string = Some address →
       Forall (λ part, address !! part = None) address_parts →
       ∃ place,
         reverse_geocode geolocator_reverse coords = Ok place
         ∧ place = []
         ∧ add_overlay getbbox image
             (caption_text repr_float date (Some coords) place)
             text_color shadow_color
           = Raise IndexError).
Proof.
  pose proof (add_overlay_spec getbbox image text text_color shadow_color)
    as Htext.
  split; [by intros H; rewrite H in Htext|].
  split; [by intros H; rewrite H in Htext|].
  intros geolocator_reverse coords location address repr_float date
    Hgeo Haddr Hnone.
  exists []. split; [by eapply reverse_geocode_no_usable_field|].
  split; [done|].
  pose proof (add_overlay_spec getbbox image
                (caption_text repr_float date (Some coords) [])
                text_color shadow_color) as Hcaption.
  by rewrite caption_ok_empty_location in Hcaption.
Qed.

Lemma add_overlay_needs_content_example :
  is_ok (add_overlay fixed_pitch (blank_canvas 640 480)
           (lit "Date and Time: 2022:01:01" ++ [newline]
            ++ lit "Location: New York, USA")
           TEXT_COLOR SHADOW_COLOR) = true
  ∧ add_overlay fixed_pitch (blank_canvas 640 480) (lit "Location: ")
      TEXT_COLOR SHADOW_COLOR
    = Raise IndexError
  ∧ add_overlay fixed_pitch (blank_canvas 640 480)
      (caption_text repr_stub (lit "2022:01:01 10:00:00") (Some (40, -74)%Q) [])
      TEXT_COLOR SHADOW_COLOR
    = Raise IndexError.
Proof.
  split; [|split].
  - destruct (proj1 (add_overlay_needs_content fixed_pitch
                       (blank_canvas 640 480)
                       (lit "Date and Time: 2022:01:01" ++ [newline]
                        ++ lit "Location: New York, USA")
                       TEXT_COLOR SHADOW_COLOR) eq_refl) as [image' ->].
    reflexivity.
  - apply (proj1 (proj2 (add_overlay_needs_content fixed_pitch
                           (blank_canvas 640 480) (lit "Location: ")
                           TEXT_COLOR SHADOW_COLOR))).
    reflexivity.
  - destruct (proj2 (proj2 (add_overlay_needs_content fixed_pitch
                              (blank_canvas 640 480) []
                              TEXT_COLOR SHADOW_COLOR))
                (geocoder_returns (Some location_postcode_only))
                (40, -74)%Q location_postcode_only
                {[ "postcode"%string := lit "10001" ]}
                repr_stub (lit "2022:01:01 10:00:00") eq_refl eq_refl)
      as (place & _ & -> & Hraise).
    + repeat constructor.
    + exact Hraise.
Defined.

(** ** The batch loop *)

Section PipelineProperties.
Variable getbbox : str → Z * Z * Z * Z.
Variable geolocator_reverse : Q * Q → result (option Location).
Variable repr_float : Q → str.

Local Abbreviation process :=
  (process_image getbbox geolocator_reverse repr_float).
Local Abbreviation loop :=
  (main_loop getbbox geolocator_reverse repr_float).

(** An exception leaves [process_image] exactly when [get_date] raises it:
    the calls before the [try] block are not guarded, and of those only
    [get_date] can raise. *)
Lemma process_image_raises_iff (f : file_env) (output_path : string)
    (e : exn) :
  process f output_path = Raise e
  ↔ ∃ exif_data, fe_piexif_load f = Ok exif_data ∧ exif_data ≠ ∅
      ∧ get_date exif_data = Raise e.
Proof.
  unfold process_image, get_exif_data.
  destruct (fe_piexif_load f) as [exif_data|e'].
  - case_bool_decide as Hempty.
    { split; [done|]. by intros (? & [= <-] & ? & _). }
    destruct (get_date exif_data) as [date|e'] eqn:Hdate; simpl.
    + split; [|by intros (? & [= <-] & _ & ?); congruence].
      destruct (get_gps_coords_total exif_data) as [coords ->]. simpl.
      destruct coords as [c|]; simpl.
      * destruct (reverse_geocode_total geolocator_reverse c) as [s ->].
        simpl. by destruct (render_and_save _ _ _ _).
      * by destruct (render_and_save _ _ _ _).
    + split.
      * intros [= ->]. by exists exif_data.
      * intros (? & [= <-] & _ & ?). congruence.
  - split; [done|]. by intros (? & ? & _).
Qed.

(** Failures of the stages inside the [try] block stay in their job. *)
Lemma process_image_isolated (f : file_env) (output_path : string)
    (exif_data : ExifDict) (date : str) :
  fe_piexif_load f = Ok exif_data →
  get_date exif_data = Ok date →
  ∃ outcome, process f output_path = Ok outcome.
Proof.
  intros Hload Hdate.
  destruct (process f output_path) as [outcome|e] eqn:H; [eauto|].
  apply process_image_raises_iff in H as (exif' & Hload' & _ & Hraise).
  congruence.
Qed.

(** A file that piexif cannot read is skipped. *)
Lemma process_image_unreadable (f : file_env) (output_path : string)
    (e : exn) :
  fe_piexif_load f = Raise e → process f output_path = Ok Skipped.
Proof.
  intros H. unfold process_image, get_exif_data. by rewrite H.
Qed.

Lemma main_loop_cons (f : file_env) (files : list file_env) :
  loop (f :: files) =
  if endswith (lower (fe_file f)) SUPPORTED_EXTENSIONS then
    match fe_output_dir_error f with
    | Some e => ([], Some e)
    | None =>
      match process f (OUTPUT_FOLDER +:+ "/" +:+ fe_relative_path f)%string with
      | Ok outcome =>
        let '(jobs, escaped) := loop files in
        ((fe_relative_path f, outcome) :: jobs, escaped)
      | Raise e => ([], Some e)
      end
    end
  else loop files.
Proof. simpl. by destruct (fe_output_dir_error f). Qed.

(** The run goes through every file when every output directory can be
    created and no [get_date] call raises. *)
Lemma main_loop_completes (files : list file_env) :
  Forall (λ f, fe_output_dir_error f = None
               ∧ ∀ exif_data, fe_piexif_load f = Ok exif_data →
                   is_ok (get_date exif_data) = true) files →
  (loop files).2 = None.
Proof.
  induction 1 as [|f files [Hdir Hf] _ IH]; [done|]. rewrite main_loop_cons.
  destruct (endswith (lower (fe_file f)) SUPPORTED_EXTENSIONS); [|exact IH].
  rewrite Hdir.
  destruct (process f _) as [outcome|e] eqn:H.
  - by destruct (loop files) as [jobs escaped].
  - apply process_image_raises_iff in H as (exif' & Hload' & _ & Hraise).
    specialize (Hf _ Hload'). by rewrite Hraise in Hf.
Qed.
End PipelineProperties.

(** The job of a geotagged photo fails when the service answers with an
    address that has none of the six fields: the place name is empty and the
    layout raises. *)
Lemma empty_place_name_fails_job (getbbox : str → Z * Z * Z * Z)
    (repr_float : Q → str) (output_path : string) :
  process_image getbbox (geocoder_returns (Some location_postcode_only))
    repr_float new_york_file output_path
  = Ok (Failed IndexError).
Proof.
  unfold process_image, get_exif_data. simpl.
  change (bool_decide (exif_new_york = ∅)) with false. simpl.
  change (get_date exif_new_york) with (Ok (lit "2022:01:01 10:00:00")).
  change (get_gps_coords exif_new_york)
    with (Ok (Some (dms_value 40 1 0 1 0 1, (- dms_value 74 1 0 1 0 1)%Q))).
  simpl.
  change (reverse_geocode _ _) with (@Ok str []). simpl.
  unfold render_and_save. simpl.
  pose proof (add_overlay_spec getbbox (blank_canvas 640 480)
                (caption_text repr_float (lit "2022:01:01 10:00:00")
                   (Some (dms_value 40 1 0 1 0 1, (- dms_value 74 1 0 1 0 1)%Q))
                   [])
                TEXT_COLOR SHADOW_COLOR) as Hraise.
  rewrite caption_ok_empty_location in Hraise.
  by rewrite Hraise.
Qed.

(** C2. An exception in the stages inside [process_image]'s [try] block
    fails that job only, and the next file is still processed; but an
    exception of [get_date], which is called before the [try] block, leaves
    [process_image] and ends the run: the valid file that follows is never
    processed. *)
Theorem missing_timestamp_aborts_run
    (geolocator_reverse : Q * Q → result (option Location))
    (repr_float : Q → str) :
  main fixed_pitch geolocator_reverse repr_float true None
    [file_without_timestamp; valid_file]
  = ([], Some AttributeError)
  ∧ (∃ out,
       main fixed_pitch geolocator_reverse repr_float true None
         [corrupt_image; valid_file]
       = ([("c.png"%string,
            Failed (OtherError "cannot identify image file"));
           ("b.JPG"%string, Saved out)], None)
       ∧ out_path out = "./content/outputs/b.JPG"%string).
Proof.
  split; [reflexivity|].
  eexists. split; reflexivity.
Qed.

(** * Further properties of the code *)

(** ** The drawing loop *)

Lemma sum_heights_cons (getbbox : str → Z * Z * Z * Z) (line : str)
    (lines : list str) :
  sum_heights getbbox (line :: lines)
  = snd (get_text_size getbbox line) + sum_heights getbbox lines.
Proof. reflexivity. Qed.

Lemma sum_heights_app (getbbox : str → Z * Z * Z * Z) (l1 l2 : list str) :
  sum_heights getbbox (l1 ++ l2)
  = sum_heights getbbox l1 + sum_heights getbbox l2.
Proof.
  induction l1 as [|line l1 IH]; [done|].
  rewrite <-app_comm_cons, !sum_heights_cons, IH. apply Z.add_assoc.
Qed.

Lemma draw_lines_cons (getbbox : str → Z * Z * Z * Z) (x y : Z)
    (text_color shadow_color : color) (line : str) (lines : list str) :
  draw_lines getbbox x y text_color shadow_color (line :: lines)
  = {| dc_x := x + shadow_offset; dc_y := y + shadow_offset;
       dc_text := line; dc_fill := shadow_color |}
    :: {| dc_x := x; dc_y := y; dc_text := line; dc_fill := text_color |}
    :: draw_lines getbbox x
         (y + snd (get_text_size getbbox line) + padding)
         text_color shadow_color lines.
Proof. simpl. by destruct (get_text_size getbbox line). Qed.

Lemma draw_lines_app (getbbox : str → Z * Z * Z * Z) (x y : Z)
    (text_color shadow_color : color) (l1 l2 : list str) :
  draw_lines getbbox x y text_color shadow_color (l1 ++ l2)
  = draw_lines getbbox x y text_color shadow_color l1
    ++ draw_lines getbbox x
         (y + sum_heights getbbox l1 + padding * Z.of_nat (length l1))
         text_color shadow_color l2.
Proof.
  revert y. induction l1 as [|line l1 IH]; intros y.
  - simpl. f_equal. unfold padding. lia.
  - rewrite <-app_comm_cons, !draw_lines_cons, IH, sum_heights_cons.
    rewrite <-!app_comm_cons. do 3 f_equal.
    apply (f_equal (λ y', draw_lines getbbox x y' text_color shadow_color l2)).
    rewrite length_cons. unfold padding. lia.
Qed.

Lemma draw_lines_x (getbbox : str → Z * Z * Z * Z) (x y : Z)
    (text_color shadow_color : color) (lines : list str) :
  Forall (λ d, dc_x d = x ∨ dc_x d = x + shadow_offset)
    (draw_lines getbbox x y text_color shadow_color lines).
Proof.
  revert y. induction lines as [|line lines IH]; intros y; [constructor|].
  rewrite draw_lines_cons. constructor; [by right|].
  constructor; [by left | apply IH].
Qed.

Lemma lookup_cons_cons {A} (a b : A) (l : list A) (n : nat) :
  (a :: b :: l) !! S (S n) = l !! n.
Proof. reflexivity. Qed.

Lemma length_draw_lines (getbbox : str → Z * Z * Z * Z) (x y : Z)
    (text_color shadow_color : color) (lines : list str) :
  length (draw_lines getbbox x y text_color shadow_color lines)
  = (2 * length lines)%nat.
Proof.
  revert y. induction lines as [|line lines IH]; intros y; [done|].
  rewrite draw_lines_cons. simpl. rewrite IH. lia.
Qed.

(** X1. The drawing loop issues two calls per line, the shadow first and the
    text second; line number [i] is drawn at the height of the anchor plus
    the measured heights of the lines above it plus [i] paddings, and its
    shadow two units to the right and below. *)
Theorem draw_lines_positions (getbbox : str → Z * Z * Z * Z) (x y : Z)
    (text_color shadow_color : color) (lines : list str) (i : nat)
    (line : str) :
  lines !! i = Some line →
  length (draw_lines getbbox x y text_color shadow_color lines)
  = (2 * length lines)%nat
  ∧ draw_lines getbbox x y text_color shadow_color lines !! (2 * i)%nat
    = Some {| dc_x := x + shadow_offset;
              dc_y := y + sum_heights getbbox (take i lines)
                      + padding * Z.of_nat i + shadow_offset;
              dc_text := line; dc_fill := shadow_color |}
  ∧ draw_lines getbbox x y text_color shadow_color lines !! (2 * i + 1)%nat
    = Some {| dc_x := x;
              dc_y := y + sum_heights getbbox (take i lines)
                      + padding * Z.of_nat i;
              dc_text := line; dc_fill := text_color |}.
Proof.
  intros Hi. split; [apply length_draw_lines|].
  revert y i Hi. induction lines as [|l0 lines IH]; intros y i Hi; [done|].
  rewrite draw_lines_cons. destruct i as [|i].
  - injection Hi as ->. simpl.
    split; do 2 f_equal; unfold padding; lia.
  - simpl in Hi.
    destruct (IH (y + snd (get_text_size getbbox l0) + padding) i Hi)
      as [Hshadow Htext].
    replace (2 * S i + 1)%nat with (S (S (2 * i + 1))) by lia.
    replace (2 * S i)%nat with (S (S (2 * i))) by lia.
    rewrite !lookup_cons_cons, Hshadow, Htext.
    rewrite firstn_cons, sum_heights_cons.
    split; do 2 f_equal; unfold padding; lia.
Qed.

Lemma draw_lines_positions_example :
  draw_lines fixed_pitch 30 400 TEXT_COLOR SHADOW_COLOR
    [lit "first"; lit "second"; lit "third"] !! 5%nat
  = Some {| dc_x := 30; dc_y := 444; dc_text := lit "third";
            dc_fill := TEXT_COLOR |}.
Proof.
  by destruct (draw_lines_positions fixed_pitch 30 400 TEXT_COLOR
                 SHADOW_COLOR [lit "first"; lit "second"; lit "third"]
                 2 (lit "third") eq_refl) as (_ & _ & Htext).
Defined.

Lemma add_overlay_Ok_inv (getbbox : str → Z * Z * Z * Z) (image image' : Image)
    (text : str) (text_color shadow_color : color) :
  add_overlay getbbox image text text_color shadow_color = Ok image' →
  ∃ l, caption_layout getbbox (img_width image) (img_height image) text = Ok l
    ∧ image' = {| img_width := img_width image;
                  img_height := img_height image;
                  img_info_exif := img_info_exif image;
                  img_draws := img_draws image
                    ++ draw_lines getbbox (anchor_x l) (anchor_y l)
                         text_color shadow_color (wrapped_lines l) |}.
Proof.
  unfold add_overlay. intros H.
  apply bind_Ok_inv in H as (l & Hl & [= <-]). by exists l.
Qed.

(** X2. The caption block is bottom-aligned: whenever the layout has at
    least one line, the last call of [add_overlay] draws the last wrapped
    line in the text colour at x = 3 * padding = 30, and that line's top plus
    its measured height is the image height less 2 * padding. *)
Theorem caption_block_bottom (getbbox : str → Z * Z * Z * Z) (image : Image)
    (text : str) (text_color shadow_color : color) (l : layout)
    (above : list str) (bottom : str) :
  caption_layout getbbox (img_width image) (img_height image) text = Ok l →
  wrapped_lines l = above ++ [bottom] →
  ∃ image',
    add_overlay getbbox image text text_color shadow_color = Ok image'
    ∧ last (img_draws image')
      = Some {| dc_x := 3 * padding;
                dc_y := img_height image - 2 * padding
                        - snd (get_text_size getbbox bottom);
                dc_text := bottom; dc_fill := text_color |}.
Proof.
  intros Hl Hlines. unfold add_overlay. rewrite Hl. simpl.
  eexists. split; [reflexivity|]. simpl.
  destruct (caption_layout_Ok_inv _ _ _ _ _ Hl) as (lines & _ & ->).
  simpl in *. subst lines.
  rewrite draw_lines_app, draw_lines_cons. simpl.
  rewrite !last_app. simpl. do 2 f_equal.
  - unfold padding. lia.
  - rewrite sum_heights_app, sum_heights_cons, length_app. simpl.
    unfold padding. lia.
Qed.

Lemma caption_block_bottom_example :
  ∃ image',
    add_overlay fixed_pitch (blank_canvas 200 100)
      (lit "Location: New York, USA and more") TEXT_COLOR SHADOW_COLOR
    = Ok image'
    ∧ last (img_draws image')
      = Some {| dc_x := 30; dc_y := 68; dc_text := lit "more";
                dc_fill := TEXT_COLOR |}.
Proof.
  exact (caption_block_bottom fixed_pitch (blank_canvas 200 100)
           (lit "Location: New York, USA and more") TEXT_COLOR SHADOW_COLOR
           _ [lit "Location:New"; lit "York,"; lit "USA"; lit "and"]
           (lit "more") eq_refl eq_refl).
Defined.

(** X3. [add_overlay] keeps the size of the image, its EXIF entry and the
    calls already drawn, and every call it adds is at x = 30 (the text) or
    x = 32 (its shadow), whatever the width of the image: the block starts
    at the left margin. *)
Theorem add_overlay_frame (getbbox : str → Z * Z * Z * Z)
    (image image' : Image) (text : str) (text_color shadow_color : color) :
  add_overlay getbbox image text text_color shadow_color = Ok image' →
  img_width image' = img_width image
  ∧ img_height image' = img_height image
  ∧ img_info_exif image' = img_info_exif image
  ∧ ∃ new,
      img_draws image' = img_draws image ++ new
      ∧ Forall (λ d, dc_x d = 30 ∨ dc_x d = 32) new.
Proof.
  intros (l & Hl & ->)%add_overlay_Ok_inv. simpl.
  do 3 (split; [done|]). eexists. split; [reflexivity|].
  destruct (caption_layout_Ok_inv _ _ _ _ _ Hl) as (lines & _ & ->). simpl.
  replace (img_width image - (img_width image - padding * 4) - padding)
    with 30 by (unfold padding; lia).
  apply (draw_lines_x getbbox 30).
Qed.

Lemma add_overlay_frame_example :
  ∃ image',
    add_overlay fixed_pitch (blank_canvas 4000 3000) (lit "Date: today")
      TEXT_COLOR SHADOW_COLOR = Ok image'
    ∧ img_width image' = 4000
    ∧ Forall (λ d, dc_x d = 30 ∨ dc_x d = 32) (img_draws image').
Proof.
  eexists. split; [reflexivity|].
  destruct (add_overlay_frame fixed_pitch (blank_canvas 4000 3000) _
              (lit "Date: today") TEXT_COLOR SHADOW_COLOR eq_refl)
    as (Hw & _ & _ & new & Hnew & Hx).
  split; [exact Hw|]. rewrite Hnew. exact Hx.
Defined.

(** ** Words and lines *)

Lemma split_ws_go_words (cur s : str) :
  forallb (λ c, negb (isspace c)) cur = true →
  Forall (λ w, is_word w = true) (split_ws_go cur s).
Proof.
  revert cur. induction s as [|c s IH]; intros cur Hcur; simpl.
  - destruct cur; [constructor|]. by repeat constructor.
  - destruct (isspace c) eqn:Hc.
    + destruct cur as [|c' cur]; [by apply IH|].
      constructor; [done | by apply IH].
    + apply IH. rewrite forallb_app, Hcur. simpl. by rewrite Hc.
Qed.

(** The pieces of [text.split()] are words. *)
Lemma split_ws_words (s : str) : Forall (λ w, is_word w = true) (split_ws s).
Proof. by apply split_ws_go_words. Qed.

Lemma split_ws_go_word (cur w s : str) :
  forallb (λ c, negb (isspace c)) w = true →
  split_ws_go cur (w ++ s) = split_ws_go (cur ++ w) s.
Proof.
  revert cur. induction w as [|c w IH]; intros cur Hw; simpl.
  - by rewrite app_nil_r.
  - simpl in Hw. apply andb_true_iff in Hw as [Hc Hw].
    apply negb_true_iff in Hc. rewrite Hc, IH by done.
    by rewrite <-app_assoc.
Qed.

Lemma is_word_inv (w : str) :
  is_word w = true → w ≠ [] ∧ forallb (λ c, negb (isspace c)) w = true.
Proof. by destruct w. Qed.

Lemma split_ws_go_space (cur s : str) :
  cur ≠ [] → split_ws_go cur (32%N :: s) = cur :: split_ws_go [] s.
Proof. by destruct cur. Qed.

(** Splitting a line of words joined by single spaces gives the words
    back. *)
Lemma split_ws_line_of (ws : list str) :
  Forall (λ w, is_word w = true) ws → split_ws (line_of ws) = ws.
Proof.
  induction 1 as [|w ws Hw%is_word_inv Hws IH]; [done|].
  destruct Hw as [Hne Hw]. unfold split_ws, line_of in *.
  destruct ws as [|w' ws].
  - simpl. pose proof (split_ws_go_word [] w [] Hw) as Hgo.
    rewrite app_nil_r in Hgo. rewrite Hgo. simpl. by destruct w.
  - change (join (lit " ") (w :: w' :: ws))
      with (w ++ 32%N :: join (lit " ") (w' :: ws)).
    rewrite split_ws_go_word, split_ws_go_space by done.
    by rewrite IH.
Qed.

Lemma groups_of_words (groups : list (list str)) (words : list str) :
  concat groups = words →
  Forall (λ w, is_word w = true) words →
  Forall (Forall (λ w, is_word w = true)) groups.
Proof.
  intros <- Hwords. induction groups as [|g groups IH]; [constructor|].
  simpl in Hwords. apply Forall_app in Hwords as [Hg Hrest].
  constructor; [done | by apply IH].
Qed.

Lemma length_concat_nonempty {A} (groups : list (list A)) :
  Forall (λ g, g ≠ []) groups → (length groups ≤ length (concat groups))%nat.
Proof.
  induction 1 as [|g groups Hg _ IH]; [done|].
  simpl. rewrite length_app. destruct g; [done|]. simpl. lia.
Qed.

(** X4. Wrapping keeps the words: splitting the returned lines at
    whitespace and concatenating gives exactly the words of the text, in
    order. No word is lost, cut or reordered, whatever the font and the
    width. *)
Theorem wrap_text_keeps_words (getbbox : str → Z * Z * Z * Z) (text : str)
    (max_width : Z) :
  concat (List.map split_ws (wrap_text getbbox text max_width))
  = split_ws text.
Proof.
  destruct (wrap_text_partition getbbox max_width text)
    as (groups & -> & Hcat & _).
  pose proof (groups_of_words groups _ Hcat (split_ws_words text)) as Hg.
  rewrite <-Hcat. f_equal. rewrite List.map_map.
  clear Hcat. induction Hg as [|g groups Hg _ IH]; [done|].
  simpl. by rewrite split_ws_line_of, IH.
Qed.

(** X5. [wrap_text] never returns an empty or blank line, and it returns at
    most as many lines as the text has words. *)
Theorem wrap_text_no_blank_line (getbbox : str → Z * Z * Z * Z) (text : str)
    (max_width : Z) :
  Forall (λ line, blank line = false) (wrap_text getbbox text max_width)
  ∧ (length (wrap_text getbbox text max_width) ≤ length (split_ws text))%nat.
Proof.
  destruct (wrap_text_partition getbbox max_width text)
    as (groups & -> & Hcat & Hne & _).
  pose proof (groups_of_words groups _ Hcat (split_ws_words text)) as Hg.
  split.
  - apply List.Forall_map, Forall_forall. intros g Hin.
    rewrite Forall_forall in Hg, Hne.
    destruct (blank (line_of g)) eqn:Hblank; [|done].
    apply split_ws_nil in Hblank. rewrite split_ws_line_of in Hblank
      by by apply Hg.
    by destruct (Hne g Hin).
  - rewrite length_map, <-Hcat. by apply length_concat_nonempty.
Qed.

Lemma singletons_lines (groups : list (list str)) :
  Forall (λ g, ∃ w, g = [w]) groups →
  List.map line_of groups = concat groups.
Proof.
  induction 1 as [|g groups [w ->] _ IH]; [done|].
  simpl. by rewrite IH.
Qed.

(** X6. When every tentative line fits, that is when the first [n] words of
    the text joined by spaces measure at most the width for every [n] > 0, the
    whole text comes back as one line with its whitespace normalised to
    single spaces. *)
Theorem wrap_text_single_line (getbbox : str → Z * Z * Z * Z) (text : str)
    (max_width : Z) :
  blank text = false →
  (∀ n, (0 < n)%nat →
     text_width getbbox (line_of (take n (split_ws text))) ≤ max_width) →
  wrap_text getbbox text max_width = [line_of (split_ws text)].
Proof.
  intros Hblank Hfit.
  destruct (wrap_text_partition getbbox max_width text)
    as (groups & -> & Hcat & Hne & _ & Hadj).
  destruct groups as [|g1 [|g2 groups]].
  - simpl in Hcat. symmetry in Hcat. apply split_ws_nil in Hcat. congruence.
  - simpl in *. by rewrite app_nil_r in Hcat; subst g1.
  - exfalso. apply Forall_cons in Hne as [_ Hne].
    apply Forall_cons in Hne as [Hg2 _].
    destruct g2 as [|w g2]; [done|].
    pose proof (Hadj 0%nat g1 (w :: g2) w eq_refl eq_refl eq_refl) as Hover.
    specialize (Hfit (length (g1 ++ [w]))
                  ltac:(rewrite length_app; simpl; lia)).
    rewrite <-Hcat in Hfit.
    change (concat (g1 :: (w :: g2) :: groups))
      with (g1 ++ (w :: g2) ++ concat groups) in Hfit.
    replace (g1 ++ (w :: g2) ++ concat groups)
      with ((g1 ++ [w]) ++ g2 ++ concat groups) in Hfit
      by by rewrite <-!app_assoc.
    rewrite take_app_length in Hfit. lia.
Qed.

Lemma wrap_text_single_line_example :
  wrap_text fixed_pitch (lit "  New   York  ") 100 = [lit "New York"].
Proof.
  apply (wrap_text_single_line fixed_pitch (lit "  New   York  ") 100);
    [reflexivity|].
  intros [|[|[|n]]] Hn; [lia|..]; vm_compute; discriminate.
Defined.

(** X7. When no two words fit on a line, every word gets a line of its own:
    the result is the list of the words, in order. *)
Theorem wrap_text_word_per_line (getbbox : str → Z * Z * Z * Z) (text : str)
    (max_width : Z) :
  (∀ a b, a ∈ split_ws text → b ∈ split_ws text →
     max_width < text_width getbbox (line_of [a; b])) →
  wrap_text getbbox text max_width = split_ws text.
Proof.
  intros Hover.
  destruct (wrap_text_partition getbbox max_width text)
    as (groups & -> & Hcat & Hne & Hfits & _).
  rewrite <-Hcat. apply singletons_lines, Forall_forall.
  intros g Hg. rewrite Forall_forall in Hne.
  destruct g as [|a [|b g]]; [by destruct (Hne [] Hg) | by exists a |].
  exfalso.
  assert (∀ w, w ∈ a :: b :: g → w ∈ split_ws text) as Hin.
  { intros w Hw. rewrite <-Hcat. apply list_elem_of_In, in_concat.
    exists (a :: b :: g). by rewrite <-!list_elem_of_In. }
  assert (text_width getbbox (line_of [a; b]) ≤ max_width) as Hfit.
  { apply (Hfits (a :: b :: g) [a; b]); [done| |simpl; lia].
    by exists g. }
  specialize (Hover a b (Hin a ltac:(left)) (Hin b ltac:(right; left))).
  lia.
Qed.

Lemma wrap_text_word_per_line_example :
  wrap_text fixed_pitch (lit "New York  USA") 40
  = [lit "New"; lit "York"; lit "USA"].
Proof.
  apply (wrap_text_word_per_line fixed_pitch (lit "New York  USA") 40).
  intros a b Ha Hb.
  change (split_ws (lit "New York  USA"))
    with [lit "New"; lit "York"; lit "USA"] in Ha, Hb.
  repeat (apply elem_of_cons in Ha as [->|Ha]);
    repeat (apply elem_of_cons in Hb as [->|Hb]);
    try (by apply elem_of_nil in Ha); try (by apply elem_of_nil in Hb);
    reflexivity.
Defined.

(** ** The caption of a photo *)

Lemma has_newline_app (a b : str) :
  has_newline (a ++ b) = has_newline a || has_newline b.
Proof. apply existsb_app. Qed.

Lemma split_on_go_no_sep (cur s : str) :
  has_newline s = false → split_on_go newline cur s = [cur ++ s].
Proof.
  revert cur. induction s as [|c s IH]; intros cur; simpl.
  - by rewrite app_nil_r.
  - destruct (c =? newline)%N; [done|]. simpl. intros Hs.
    by rewrite IH, <-app_assoc.
Qed.

(** A text without a line break is one logical line. *)
Lemma split_on_no_newline (s : str) :
  has_newline s = false → split_on newline s = [s].
Proof. apply (split_on_go_no_sep []). Qed.

Lemma split_colon_once_label (label rest : str) :
  has_colon label = false →
  has_colon (label ++ colon :: rest) = true
  ∧ split_colon_once (label ++ colon :: rest) = (label, rest).
Proof.
  induction label as [|c label IH]; [done|].
  simpl. destruct (c =? colon)%N eqn:Hc; [done|]. simpl.
  intros [-> ->]%IH. done.
Qed.

(** A line that starts with a literal label, a colon and a space has content
    exactly when what follows is not blank. *)
Lemma line_has_content_label (label rest : str) :
  has_colon label = false →
  line_has_content (label ++ colon :: 32%N :: rest) = negb (blank rest).
Proof.
  intros Hlabel. unfold line_has_content, content_of.
  by destruct (split_colon_once_label label (32%N :: rest) Hlabel)
    as [-> ->].
Qed.

Lemma format_coords_plain (repr_float : Q → str) (coords : option (Q * Q)) :
  (∀ q, has_newline (repr_float q) = false) →
  has_newline (format_coords repr_float coords) = false
  ∧ blank (format_coords repr_float coords) = false.
Proof.
  intros Hrepr. destruct coords as [[lat lon]|]; [|done].
  unfold format_coords. split; [|done].
  by rewrite !has_newline_app, !Hrepr.
Qed.

(** When the date and the place name hold no line break the caption has
    three logical lines. *)
Lemma caption_text_lines (repr_float : Q → str) (date : str)
    (coords : option (Q * Q)) (location : str) :
  has_newline date = false →
  has_newline location = false →
  (∀ q, has_newline (repr_float q) = false) →
  split_on newline (caption_text repr_float date coords location)
  = [lit "Date and Time: " ++ date;
     lit "Lattitude, Longitude: " ++ format_coords repr_float coords;
     lit "Location: " ++ location].
Proof.
  intros Hdate Hloc Hrepr.
  destruct (format_coords_plain repr_float coords Hrepr) as [Hcoords _].
  unfold caption_text.
  replace (lit "Date and Time: " ++ date ++ [newline]
           ++ lit "Lattitude, Longitude: " ++ format_coords repr_float coords
           ++ [newline] ++ lit "Location: " ++ location)
    with ((lit "Date and Time: " ++ date) ++ newline
          :: ((lit "Lattitude, Longitude: " ++ format_coords repr_float coords)
              ++ newline :: (lit "Location: " ++ location)))
    by by rewrite <-!app_assoc.
  rewrite !split_on_app, !split_on_no_newline; [done|..];
    by rewrite has_newline_app; [rewrite ?Hdate, ?Hloc, ?Hcoords].
Qed.

(** X8. For a date and a place name without line breaks, the caption of a
    photo can be laid out exactly when neither of them is empty or blank: a
    blank date or a blank place name makes [add_overlay] raise
    [IndexError]. *)
Theorem caption_needs_date_and_place (getbbox : str → Z * Z * Z * Z)
    (repr_float : Q → str) (image : Image) (date : str)
    (coords : option (Q * Q)) (location : str)
    (text_color shadow_color : color) :
  has_newline date = false →
  has_newline location = false →
  (∀ q, has_newline (repr_float q) = false) →
  (blank date = false ∧ blank location = false →
   ∃ image',
     add_overlay getbbox image
       (caption_text repr_float date coords location)
       text_color shadow_color = Ok image')
  ∧ (blank date = true ∨ blank location = true →
     add_overlay getbbox image
       (caption_text repr_float date coords location)
       text_color shadow_color = Raise IndexError).
Proof.
  intros Hdate Hloc Hrepr.
  pose proof (add_overlay_spec getbbox image
                (caption_text repr_float date coords location)
                text_color shadow_color) as Hspec.
  unfold caption_ok in Hspec.
  rewrite caption_text_lines in Hspec by done.
  destruct (format_coords_plain repr_float coords Hrepr) as [_ Hcoords].
  change (lit "Date and Time: " ++ date)
    with (lit "Date and Time" ++ colon :: 32%N :: date) in Hspec.
  change (lit "Lattitude, Longitude: " ++ format_coords repr_float coords)
    with (lit "Lattitude, Longitude" ++ colon :: 32%N
          :: format_coords repr_float coords) in Hspec.
  change (lit "Location: " ++ location)
    with (lit "Location" ++ colon :: 32%N :: location) in Hspec.
  cbn [forallb] in Hspec.
  rewrite !line_has_content_label, Hcoords in Hspec by done.
  split.
  - intros [Hd Hl]. by rewrite Hd, Hl in Hspec.
  - intros [Hd|Hl].
    + by rewrite Hd in Hspec.
    + rewrite Hl in Hspec. by destruct (blank date).
Qed.

Lemma caption_needs_date_and_place_example :
  add_overlay fixed_pitch (blank_canvas 640 480)
    (caption_text repr_stub (lit "  ") None (lit "Oslo, Norway"))
    TEXT_COLOR SHADOW_COLOR
  = Raise IndexError.
Proof.
  apply (caption_needs_date_and_place fixed_pitch repr_stub
           (blank_canvas 640 480) (lit "  ") None (lit "Oslo, Norway")
           TEXT_COLOR SHADOW_COLOR);
    [reflexivity | reflexivity | reflexivity | by left].
Defined.

(** ** What a job saves *)

Lemma raise_if_Ok_inv (e : option exn) (u : unit) :
  raise_if e = Ok u → e = None.
Proof. by destruct e. Qed.

Lemma render_and_save_Ok_inv (getbbox : str → Z * Z * Z * Z) (f : file_env)
    (output_path : string) (text : str) (out : output_file) :
  render_and_save getbbox f output_path text = Ok out →
  ∃ img img_r image',
    fe_image_open f = Ok img
    ∧ (if MAX_WIDTH <? img_width img
       then fe_resize_error f = None
            ∧ img_r = {| img_width := MAX_WIDTH;
                         img_height :=
                           new_height (img_width img) (img_height img);
                         img_info_exif := img_info_exif img;
                         img_draws := img_draws img |}
       else img_r = img)
    ∧ add_overlay getbbox img_r text TEXT_COLOR SHADOW_COLOR = Ok image'
    ∧ fe_makedirs_error f = None
    ∧ fe_save_error f = None
    ∧ out = {| out_path := output_path; out_image := image';
               out_exif := img_info_exif img_r |}.
Proof.
  unfold render_and_save. intros H.
  apply bind_Ok_inv in H as (img & Hopen & H).
  apply bind_Ok_inv in H as (img_r & Hresize & H).
  apply bind_Ok_inv in H as (image' & Hoverlay & H).
  apply bind_Ok_inv in H as (u1 & Hmk%raise_if_Ok_inv & H).
  apply bind_Ok_inv in H as (u2 & Hsave%raise_if_Ok_inv & [= <-]).
  exists img, img_r, image'. split; [done|]. split.
  { destruct (MAX_WIDTH <? img_width img).
    - apply bind_Ok_inv in Hresize as (u0 & Hrs%raise_if_Ok_inv & [= <-]).
      done.
    - by injection Hresize as <-. }
  done.
Qed.

Lemma process_image_Saved_inv (getbbox : str → Z * Z * Z * Z)
    (geolocator_reverse : Q * Q → result (option Location))
    (repr_float : Q → str) (f : file_env) (output_path : string)
    (out : output_file) :
  process_image getbbox geolocator_reverse repr_float f output_path
  = Ok (Saved out) →
  ∃ exif_data date text,
    fe_piexif_load f = Ok exif_data
    ∧ exif_data ≠ ∅
    ∧ get_date exif_data = Ok date
    ∧ render_and_save getbbox f output_path text = Ok out.
Proof.
  unfold process_image, get_exif_data.
  destruct (fe_piexif_load f) as [exif_data|]; [|done].
  case_bool_decide as Hempty; [done|].
  destruct (get_date exif_data) as [date|] eqn:Hdate; [simpl|done].
  destruct (get_gps_coords_total exif_data) as [coords ->]. simpl.
  destruct coords as [c|]; simpl.
  - destruct (reverse_geocode_total geolocator_reverse c) as [place ->].
    simpl. destruct (render_and_save _ _ _ _) as [out'|] eqn:Hr; [|done].
    intros [= <-]. exists exif_data, date. eauto.
  - destruct (render_and_save _ _ _ _) as [out'|] eqn:Hr; [|done].
    intros [= <-]. exists exif_data, date. eauto.
Qed.

(** X9. A job saves a file only after piexif loaded a non-empty tag
    dictionary, [get_date] returned, the image opened and neither
    [os.makedirs] nor [save] raised; the file is written to the path given,
    with the EXIF entry of the opened image passed on unchanged and the
    earlier content of the image kept under the caption. *)
Theorem saved_output_keeps_exif (getbbox : str → Z * Z * Z * Z)
    (geolocator_reverse : Q * Q → result (option Location))
    (repr_float : Q → str) (f : file_env) (output_path : string)
    (out : output_file) :
  process_image getbbox geolocator_reverse repr_float f output_path
  = Ok (Saved out) →
  ∃ exif_data date img,
    fe_piexif_load f = Ok exif_data
    ∧ exif_data ≠ ∅
    ∧ get_date exif_data = Ok date
    ∧ fe_image_open f = Ok img
    ∧ fe_makedirs_error f = None
    ∧ fe_save_error f = None
    ∧ out_path out = output_path
    ∧ out_exif out = img_info_exif img
    ∧ img_info_exif (out_image out) = img_info_exif img
    ∧ img_draws img `prefix_of` img_draws (out_image out).
Proof.
  intros (exif_data & date & text & Hload & Hne & Hdate & Hr)
    %process_image_Saved_inv.
  apply render_and_save_Ok_inv in Hr
    as (img & img_r & image' & Hopen & Hresize & Hoverlay & Hmk & Hsave & ->).
  apply add_overlay_Ok_inv in Hoverlay as (l & _ & ->). simpl.
  exists exif_data, date, img. do 7 (split; [done|]).
  assert (img_info_exif img_r = img_info_exif img
          ∧ img_draws img_r = img_draws img) as [-> ->].
  { destruct (MAX_WIDTH <? img_width img);
      [by destruct Hresize as [_ ->] | by subst]. }
  do 2 (split; [done|]). by eexists.
Qed.

Lemma saved_output_keeps_exif_example :
  ∃ out,
    process_image fixed_pitch (geocoder_returns None) repr_stub valid_file
      (output_path_of "b.JPG") = Ok (Saved out)
    ∧ out_path out = "./content/outputs/b.JPG"%string
    ∧ out_exif out = None.
Proof.
  eexists. split; [reflexivity|].
  destruct (saved_output_keeps_exif fixed_pitch (geocoder_returns None)
              repr_stub valid_file (output_path_of "b.JPG") _ eq_refl)
    as (exif_data & date & img & _ & _ & _ & Hopen & _ & _ & Hpath & Hexif & _).
  injection Hopen as <-. by split.
Defined.

(** Rounding keeps the sign it is given. *)
Lemma binary_round_aux_sign (m e : Z) (l : SpecFloat.location) :
  sign_bit (SpecFloat.binary_round_aux float_prec float_emax false m e l)
  = false.
Proof.
  unfold SpecFloat.binary_round_aux.
  destruct (SpecFloat.shr_fexp _ _ m e l) as [mrs' e'].
  destruct (SpecFloat.shr_fexp _ _ _ e' _) as [mrs'' e''].
  destruct (SpecFloat.shr_m mrs''); [done| |done].
  by destruct (e'' <=? _).
Qed.

Lemma float_of_int_sign (n : Z) : 0 ≤ n → sign_bit (float_of_int n) = false.
Proof.
  intros Hn. unfold float_of_int, SpecFloat.binary_normalize.
  destruct n as [|p|p]; [done| |lia].
  unfold SpecFloat.binary_round.
  destruct (SpecFloat.shl_align _ _ _) as [mz ez].
  apply binary_round_aux_sign.
Qed.

Lemma float_truediv_sign (x y : float) :
  sign_bit x = false → sign_bit y = false →
  sign_bit (float_truediv x y) = false.
Proof.
  destruct x as [sx|sx| |sx mx ex], y as [sy|sy| |sy my ey]; simpl;
    try done; intros -> ->; try done.
  unfold float_truediv, SpecFloat.SFdiv.
  destruct (SpecFloat.SFdiv_core_binary _ _ _ _ _ _) as [[mz ez] lz].
  apply binary_round_aux_sign.
Qed.

Lemma float_mul_sign (x y : float) :
  sign_bit x = false → sign_bit y = false → sign_bit (float_mul x y) = false.
Proof.
  destruct x as [sx|sx| |sx mx ex], y as [sy|sy| |sy my ey]; simpl;
    try done; intros -> ->; try done.
  apply binary_round_aux_sign.
Qed.

Lemma int_of_float_nonneg (x : float) :
  sign_bit x = false → 0 ≤ int_of_float x.
Proof.
  destruct x as [s|s| |s m e]; try done. simpl. intros ->.
  destruct (Z.leb_spec 0 e) as [He|He].
  - apply Z.mul_nonneg_nonneg; [lia|]. by apply Z.pow_nonneg.
  - apply Z.div_pos; [lia|]. apply Z.pow_pos_nonneg; lia.
Qed.

(** X10. The saved image is never wider than [MAX_WIDTH]: its width is the
    smaller of the opened image's width and 2048. Only the width triggers
    the resize, so an image at most 2048 wide keeps its height however tall
    it is; a wider one gets the height [int(float(height) * ratio)] with
    [ratio = 2048 / float(width)], computed in binary64 and cut off, not
    rounded, and never below zero: a 2244 x 561 photo is saved 511 high,
    though 561 * 2048 / 2244 is 512. *)
Theorem saved_image_size (getbbox : str → Z * Z * Z * Z)
    (geolocator_reverse : Q * Q → result (option Location))
    (repr_float : Q → str) (f : file_env) (output_path : string)
    (out : output_file) (img : Image) :
  process_image getbbox geolocator_reverse repr_float f output_path
  = Ok (Saved out) →
  fe_image_open f = Ok img →
  img_width (out_image out) = Z.min (img_width img) MAX_WIDTH
  ∧ (img_width img ≤ MAX_WIDTH →
     img_height (out_image out) = img_height img)
  ∧ (MAX_WIDTH < img_width img →
     img_height (out_image out)
     = int_of_float
         (float_mul (float_of_int (img_height img))
            (float_truediv (float_of_int MAX_WIDTH)
               (float_of_int (img_width img))))
     ∧ (0 ≤ img_height img → 0 ≤ img_height (out_image out))).
Proof.
  intros (exif_data & date & text & _ & _ & _ & Hr)%process_image_Saved_inv
    Hopen.
  apply render_and_save_Ok_inv in Hr
    as (img' & img_r & image' & Hopen' & Hresize & Hoverlay & _ & _ & ->).
  rewrite Hopen in Hopen'. injection Hopen' as <-.
  apply add_overlay_Ok_inv in Hoverlay as (l & _ & ->). simpl.
  destruct (Z.ltb_spec MAX_WIDTH (img_width img)) as [Hwide|Hnarrow].
  - destruct Hresize as [_ ->]. simpl.
    split; [lia|]. split; [lia|]. intros _. split; [done|].
    intros Hh. unfold MAX_WIDTH in Hwide.
    apply int_of_float_nonneg, float_mul_sign;
      [|apply float_truediv_sign]; apply float_of_int_sign;
      unfold MAX_WIDTH; lia.
  - subst img_r. split; [lia|]. split; [done|lia].
Qed.

Lemma saved_image_size_example :
  ∃ out,
    process_image fixed_pitch (geocoder_returns None) repr_stub panorama_file
      (output_path_of "pano.jpg") = Ok (Saved out)
    ∧ img_width (out_image out) = 2048
    ∧ img_height (out_image out) = 511.
Proof.
  eexists. split; [vm_compute; reflexivity|].
  destruct (saved_image_size fixed_pitch (geocoder_returns None) repr_stub
              panorama_file (output_path_of "pano.jpg") _
              (blank_canvas 2244 561) ltac:(vm_compute; reflexivity) eq_refl)
    as (Hw & _ & Hh).
  split; [exact Hw|].
  destruct (Hh ltac:(vm_compute; reflexivity)) as [-> _].
  vm_compute. reflexivity.
Defined.

(** ** The run *)

Lemma process_image_saved_path (getbbox : str → Z * Z * Z * Z)
    (geolocator_reverse : Q * Q → result (option Location))
    (repr_float : Q → str) (f : file_env) (output_path : string)
    (out : output_file) :
  process_image getbbox geolocator_reverse repr_float f output_path
  = Ok (Saved out) →
  out_path out = output_path.
Proof.
  intros (exif_data & date & text & _ & _ & _ & Hr)%process_image_Saved_inv.
  by apply render_and_save_Ok_inv
    in Hr as (img & img_r & image' & _ & _ & _ & _ & _ & ->).
Qed.

Lemma main_loop_supported (getbbox : str → Z * Z * Z * Z)
    (geolocator_reverse : Q * Q → result (option Location))
    (repr_float : Q → str) (f : file_env) (files : list file_env) :
  main_loop getbbox geolocator_reverse repr_float (f :: files) =
  if supported f then
    match fe_output_dir_error f with
    | Some e => ([], Some e)
    | None =>
      match process_image getbbox geolocator_reverse repr_float f
              (output_path_of (fe_relative_path f)) with
      | Ok outcome =>
        let '(jobs, escaped) :=
          main_loop getbbox geolocator_reverse repr_float files in
        ((fe_relative_path f, outcome) :: jobs, escaped)
      | Raise e => ([], Some e)
      end
    end
  else main_loop getbbox geolocator_reverse repr_float files.
Proof. exact (main_loop_cons _ _ _ f files). Qed.

(** X11. The jobs of a run follow the walked files: only files whose
    lower-cased name ends in a supported extension get a job, in the order
    walked, up to the file at which the run ended; when the run was not cut
    short there is one job per supported file. Every saved file lies at the
    output folder joined with the file's path relative to the input folder.
    Without an input folder nothing runs. *)
Theorem main_jobs_follow_files (getbbox : str → Z * Z * Z * Z)
    (geolocator_reverse : Q * Q → result (option Location))
    (repr_float : Q → str) (output_folder_error : option exn)
    (files : list file_env) :
  main getbbox geolocator_reverse repr_float false output_folder_error files
  = ([], None)
  ∧ List.map fst
      (main getbbox geolocator_reverse repr_float true output_folder_error
         files).1
    `prefix_of` List.map fe_relative_path (List.filter supported files)
  ∧ ((main getbbox geolocator_reverse repr_float true output_folder_error
        files).2 = None →
     List.map fst
       (main getbbox geolocator_reverse repr_float true output_folder_error
          files).1
     = List.map fe_relative_path (List.filter supported files))
  ∧ Forall (λ job, ∀ out, job.2 = Saved out →
                     out_path out = output_path_of job.1)
      (main getbbox geolocator_reverse repr_float true output_folder_error
         files).1.
Proof.
  split; [done|]. unfold main.
  destruct output_folder_error as [e0|]; simpl.
  { split; [apply prefix_nil|]. by split. }
  induction files as [|f files (IHpre & IHall & IHpath)];
    [by repeat split|].
  rewrite main_loop_supported. simpl List.filter.
  destruct (supported f); [|done].
  destruct (fe_output_dir_error f) as [e1|].
  { simpl. split; [apply prefix_nil|]. by split. }
  destruct (process_image _ _ _ f _) as [outcome|e] eqn:Hp.
  - destruct (main_loop _ _ _ files) as [jobs escaped]. simpl in *.
    split; [by apply prefix_cons|]. split; [by intros ->%IHall|].
    constructor; [|done]. simpl. intros out ->.
    by apply process_image_saved_path in Hp.
  - simpl. split; [apply prefix_nil|]. by split.
Qed.

Lemma main_jobs_follow_files_example :
  List.map fst
    (main fixed_pitch (geocoder_returns None) repr_stub true None
       [valid_file;
        {| fe_file := "notes.txt"; fe_relative_path := "notes.txt";
           fe_piexif_load := fe_piexif_load valid_file;
           fe_image_open := fe_image_open valid_file;
           fe_output_dir_error := None;
           fe_resize_error := None; fe_makedirs_error := None;
           fe_save_error := None |};
        wide_file]).1
  = ["b.JPG"; "wide.jpg"]%string.
Proof.
  by apply (main_jobs_follow_files fixed_pitch (geocoder_returns None)
              repr_stub None).
Defined.




(** ** Place names, once more *)

Lemma omap_lookup_ext (a a' : gmap string str) (parts : list string) :
  Forall (λ part, a !! part = a' !! part) parts →
  omap (λ part, a !! part) parts = omap (λ part, a' !! part) parts.
Proof.
  induction 1 as [|part parts Hpart _ IH]; [done|].
  simpl. rewrite Hpart.
  destruct (a' !! part); [f_equal|]; exact IH.
Qed.

(** X13. The place name depends on the six fields only: two answers whose
    addresses agree on road, suburb, city, state_district, state and country
    give the same string, whatever else the addresses hold (postcode, house
    number, country code). *)
Theorem reverse_geocode_only_six_fields
    (geolocator_reverse geolocator_reverse' : Q * Q → result (option Location))
    (coords coords' : Q * Q) (location location' : Location)
    (address address' : gmap string str) :
  geolocator_reverse coords = Ok (Some location) →
  geolocator_reverse' coords' = Ok (Some location') →
  raw location !! "address"%string = Some address →
  raw location' !! "address"%string = Some address' →
  Forall (λ part, address !! part = address' !! part) address_parts →
  reverse_geocode geolocator_reverse coords
  = reverse_geocode geolocator_reverse' coords'.
Proof.
  intros Hgeo Hgeo' Haddr Haddr' Hsame.
  rewrite (reverse_geocode_address _ _ _ _ Hgeo Haddr).
  rewrite (reverse_geocode_address _ _ _ _ Hgeo' Haddr').
  by rewrite (omap_lookup_ext _ _ _ Hsame).
Qed.

Lemma reverse_geocode_only_six_fields_example :
  reverse_geocode
    (geocoder_returns
       (Some {| raw := {[ "address"%string :=
                            {[ "city"%string := lit "New York";
                               "postcode"%string := lit "10001";
                               "country"%string := lit "USA";
                               "country_code"%string := lit "us" ]} ]} |}))
    (40, -74)%Q
  = reverse_geocode (geocoder_returns (Some location_new_york)) (0, 0)%Q.
Proof.
  eapply reverse_geocode_only_six_fields; try reflexivity.
  repeat constructor.
Defined.

(** X14. An answer without an 'address' entry is not an empty result: the
    [KeyError] is caught by the general handler and the place name is
    "Location Unavailable". *)
Theorem reverse_geocode_without_address
    (geolocator_reverse : Q * Q → result (option Location))
    (coords : Q * Q) (location : Location) :
  geolocator_reverse coords = Ok (Some location) →
  raw location !! "address"%string = None →
  reverse_geocode geolocator_reverse coords = Ok LOCATION_UNAVAILABLE.
Proof.
  intros Hgeo Haddr. rewrite reverse_geocode_unfold.
  unfold reverse_geocode_body. rewrite Hgeo. simpl. by rewrite Haddr.
Qed.

Lemma reverse_geocode_without_address_example :
  reverse_geocode (geocoder_returns (Some {| raw := ∅ |})) (40, -74)%Q
  = Ok (lit "Location Unavailable").
Proof.
  by apply (reverse_geocode_without_address
              (geocoder_returns (Some {| raw := ∅ |})) (40, -74)%Q
              {| raw := ∅ |}).
Defined.

(** ** The sign of a coordinate *)

Lemma Qdiv_nonneg (n d : Z) : 0 ≤ n → 0 < d → (0 <= inject_Z n / inject_Z d)%Q.
Proof.
  intros Hn Hd. unfold Qdiv. apply Qmult_le_0_compat.
  - unfold Qle. simpl. lia.
  - apply Qinv_le_0_compat. unfold Qle. simpl. lia.
Qed.

Lemma dms_value_nonneg (d0 d1 m0 m1 s0 s1 : Z) :
  0 ≤ d0 → 0 < d1 → 0 ≤ m0 → 0 < m1 → 0 ≤ s0 → 0 < s1 →
  (0 <= dms_value d0 d1 m0 m1 s0 s1)%Q.
Proof.
  intros. unfold dms_value.
  apply (Qplus_le_compat 0 _ 0); [apply (Qplus_le_compat 0 _ 0)|].
  - by apply Qdiv_nonneg.
  - apply Qmult_le_0_compat; [by apply Qdiv_nonneg | done].
  - apply Qmult_le_0_compat; [by apply Qdiv_nonneg | done].
Qed.

Lemma signed_sign (neg : bool) (q : Q) :
  (0 <= q)%Q →
  if neg then (signed neg q <= 0)%Q else (0 <= signed neg q)%Q.
Proof.
  intros Hq. destruct neg; simpl; [|done].
  by apply (Qopp_le_compat 0 q).
Qed.

(** X15. The sign tells the hemisphere. For triples as EXIF stores them
    (numerators not negative, denominators positive) the latitude is at
    most 0 when a reference other than b'N' is present and at least 0
    otherwise, and likewise the longitude with b'E'. *)
Theorem gps_sign_is_hemisphere (exif_dict : ExifDict) (gps_info : ifd)
    (d0 d1 m0 m1 s0 s1 e0 e1 f0 f1 g0 g1 : Z) :
  exif_dict !! "GPS"%string = Some gps_info →
  gps_info !! piexif.GPSLatitude = Some (dms d0 d1 m0 m1 s0 s1) →
  gps_info !! piexif.GPSLongitude = Some (dms e0 e1 f0 f1 g0 g1) →
  0 ≤ d0 ∧ 0 ≤ m0 ∧ 0 ≤ s0 ∧ 0 ≤ e0 ∧ 0 ≤ f0 ∧ 0 ≤ g0 →
  0 < d1 ∧ 0 < m1 ∧ 0 < s1 ∧ 0 < e1 ∧ 0 < f1 ∧ 0 < g1 →
  ∃ lat lon : Q,
    get_gps_coords exif_dict = Ok (Some (lat, lon))
    ∧ (if negated (gps_info !! piexif.GPSLatitudeRef) (blit "N")
       then (lat <= 0)%Q else (0 <= lat)%Q)
    ∧ (if negated (gps_info !! piexif.GPSLongitudeRef) (blit "E")
       then (lon <= 0)%Q else (0 <= lon)%Q).
Proof.
  intros Hg Hlat Hlon (? & ? & ? & ? & ? & ?) (? & ? & ? & ? & ? & ?).
  eexists _, _. split.
  - eapply get_gps_coords_dms; eauto; lia.
  - split; apply signed_sign; by apply dms_value_nonneg.
Qed.

Lemma gps_sign_is_hemisphere_example :
  ∃ lat lon : Q,
    get_gps_coords exif_new_york = Ok (Some (lat, lon))
    ∧ (0 <= lat)%Q ∧ (lon <= 0)%Q.
Proof.
  exact (gps_sign_is_hemisphere exif_new_york gps_new_york
           40 1 0 1 0 1 74 1 0 1 0 1 eq_refl eq_refl eq_refl
           ltac:(lia) ltac:(lia)).
Defined.

(** ** Plain dates *)

Lemma utf8_decode_ascii (ns : list N) :
  Forall (λ n, (n < 128)%N) ns → utf8_decode_N ns = Some ns.
Proof.
  induction 1 as [|n ns Hn%N.ltb_lt _ IH]; [done|].
  simpl. by rewrite Hn, IH.
Qed.

(** X16. An ASCII timestamp is returned verbatim: when the bytes of
    [DateTimeOriginal] are all below 128, [get_date] returns the string that
    has exactly those code points, with no parsing and no reformatting. *)
Theorem get_date_ascii_verbatim (exif_dict : ExifDict) (exif : ifd)
    (b : list byte) :
  exif_dict !! "Exif"%string = Some exif →
  exif !! piexif.DateTimeOriginal = Some (PBytes b) →
  Forall (λ x, (Byte.to_N x < 128)%N) b →
  get_date exif_dict = Ok (List.map Byte.to_N b).
Proof.
  intros Hexif Hb Hascii. rewrite get_date_unfold, Hexif, Hb. simpl.
  unfold decode_utf8. rewrite utf8_decode_ascii; [done|].
  by apply List.Forall_map.
Qed.

Lemma get_date_ascii_verbatim_example :
  get_date exif_new_york = Ok (lit "2022:01:01 10:00:00").
Proof.
  apply (get_date_ascii_verbatim exif_new_york
           {[ piexif.DateTimeOriginal := PBytes (blit "2022:01:01 10:00:00") ]}
           (blit "2022:01:01 10:00:00")); [reflexivity..|].
  repeat constructor.
Defined.

(** ** The extension filter *)

Lemma list_ascii_of_string_app (a b : string) :
  String.list_ascii_of_string (a +:+ b)
  = String.list_ascii_of_string a ++ String.list_ascii_of_string b.
Proof. induction a as [|c a IH]; [done|]. simpl. by rewrite IH. Qed.

Lemma lower_app (a b : string) : lower (a +:+ b) = lower a ++ lower b.
Proof. unfold lower. by rewrite list_ascii_of_string_app, map_app. Qed.

(** X17. The extension filter ignores case and looks at the end of the name
    only: a name made of any base followed by a supported extension in any
    mix of upper and lower case passes. *)
Theorem extension_match_ignores_case (base ext' ext : string) :
  ext ∈ SUPPORTED_EXTENSIONS →
  lower ext' = String.list_ascii_of_string ext →
  endswith (lower (base +:+ ext')) SUPPORTED_EXTENSIONS = true.
Proof.
  intros Hext Hlower. unfold endswith. apply existsb_exists.
  exists ext. split; [by apply list_elem_of_In|].
  apply bool_decide_eq_true. rewrite lower_app, Hlower.
  by apply suffix_app_r.
Qed.

Lemma extension_match_ignores_case_example :
  endswith (lower "Holiday.2022/IMG_0001.JPeG") SUPPORTED_EXTENSIONS = true.
Proof.
  apply (extension_match_ignores_case "Holiday.2022/IMG_0001" ".JPeG" ".jpeg");
    [|reflexivity].
  do 1 right. left.
Defined.

(** ** The width of a labelled line *)

Lemma wrap_text_fits (getbbox : str → Z * Z * Z * Z) (text : str)
    (max_width : Z) :
  Forall (λ w, text_width getbbox w ≤ max_width) (split_ws text) →
  Forall (λ l, text_width getbbox l ≤ max_width)
    (wrap_text getbbox text max_width).
Proof.
  intros Hwords.
  destruct (wrap_text_partition getbbox max_width text)
    as (groups & -> & Hcat & Hne & Hfits & _).
  apply List.Forall_map, Forall_forall.
  intros g Hg. destruct g as [|w [|w' g]].
  - by rewrite Forall_forall in Hne; destruct (Hne [] Hg).
  - rewrite Forall_forall in Hwords. apply Hwords.
    rewrite <-Hcat. apply list_elem_of_In, in_concat.
    exists [w]. split; [by apply list_elem_of_In | by left].
  - apply (Hfits (w :: w' :: g) (w :: w' :: g)); [done..|simpl; lia].
Qed.

(** X18. Why the content is wrapped in the reduced width: when the words of
    the content each fit the width less the measured label, and the font
    measures label, colon and segment at most as wide as the label with ": "
    plus the segment, every line that a labelled caption line produces,
    the first with its label included, fits the full usable width. *)
Theorem labelled_line_fits (getbbox : str → Z * Z * Z * Z)
    (max_text_width : Z) (line : str) (lines : list str) :
  has_colon line = true →
  0 ≤ text_width getbbox (label_of line ++ lit ": ") →
  (∀ s, text_width getbbox (label_of line ++ lit ":" ++ s)
        ≤ text_width getbbox (label_of line ++ lit ": ")
          + text_width getbbox s) →
  Forall (λ w, text_width getbbox w
               ≤ max_text_width
                 - text_width getbbox (label_of line ++ lit ": "))
    (split_ws (strip (content_of line))) →
  wrap_caption_line getbbox max_text_width line = Ok lines →
  Forall (λ l, text_width getbbox l ≤ max_text_width) lines.
Proof.
  intros Hcolon Hpos Hsub Hwords. rewrite wrap_caption_line_unfold, Hcolon.
  apply wrap_text_fits in Hwords.
  destruct (wrap_text _ _ _) as [|first others]; [done|].
  intros [= <-]. apply Forall_cons in Hwords as [Hfirst Hothers].
  constructor.
  - specialize (Hsub first). cbv beta in Hfirst.
    etrans; [exact Hsub | lia].
  - eapply Forall_impl; [exact Hothers|]. cbv beta. intros l Hl. lia.
Qed.

Lemma labelled_line_fits_example :
  Forall (λ l, text_width fixed_pitch l ≤ 160)
    [lit "Location:New"; lit "York,"; lit "USA"; lit "and"; lit "more"].
Proof.
  apply (labelled_line_fits fixed_pitch 160
           (lit "Location: New York, USA and more")); try reflexivity.
  - discriminate.
  - intros s. unfold text_width, get_text_size, fixed_pitch. simpl. lia.
  - vm_compute. repeat constructor; discriminate.
Defined.

(** ** A blank timestamp *)

Lemma split_on_go_plain (cur p s : str) :
  has_newline p = false →
  split_on_go newline cur (p ++ s) = split_on_go newline (cur ++ p) s.
Proof.
  revert cur. induction p as [|c p IH]; intros cur; simpl.
  - by rewrite app_nil_r.
  - destruct (c =? newline)%N; [done|]. simpl. intros Hp.
    by rewrite IH, <-app_assoc.
Qed.

Lemma split_on_go_blank (cur s : str) :
  blank s = true →
  ∃ s1 rest, split_on_go newline cur s = (cur ++ s1) :: rest
    ∧ blank s1 = true.
Proof.
  revert cur. induction s as [|c s IH]; intros cur Hs; simpl.
  - exists [], []. by rewrite app_nil_r.
  - rewrite blank_cons in Hs. apply andb_true_iff in Hs as [Hc Hs].
    destruct (c =? newline)%N.
    + exists [], (split_on_go newline [] s). by rewrite app_nil_r.
    + destruct (IH (cur ++ [c]) Hs) as (s1 & rest & -> & Hs1).
      exists (c :: s1), rest. rewrite <-app_assoc. split; [done|].
      by rewrite blank_cons, Hc.
Qed.

(** With a blank date the first logical line of the caption has no
    content, whatever follows. *)
Lemma caption_ok_blank_date (repr_float : Q → str) (date : str)
    (coords : option (Q * Q)) (location : str) :
  blank date = true →
  caption_ok (caption_text repr_float date coords location) = false.
Proof.
  intros Hdate. unfold caption_ok.
  assert (caption_text repr_float date coords location
          = (lit "Date and Time: " ++ date) ++ newline
            :: (lit "Lattitude, Longitude: "
                ++ format_coords repr_float coords
                ++ [newline] ++ lit "Location: " ++ location)) as ->.
  { unfold caption_text. by rewrite <-app_assoc. }
  rewrite split_on_app, forallb_app.
  apply andb_false_iff. left. unfold split_on.
  rewrite (split_on_go_plain [] (lit "Date and Time: ")) by done.
  destruct (split_on_go_blank ([] ++ lit "Date and Time: ") date Hdate)
    as (s1 & rest & -> & Hs1).
  cbn [forallb]. apply andb_false_iff. left.
  change (([] ++ lit "Date and Time: ") ++ s1)
    with (lit "Date and Time" ++ colon :: 32%N :: s1).
  rewrite line_has_content_label by done. by rewrite Hs1.
Qed.

(** X19. A blank timestamp fails the job: when [DateTimeOriginal] decodes to
    an empty or all-whitespace string, the caption's first line has no
    content, [add_overlay] raises [IndexError] inside the [try] block, and
    the photo is not saved, although its metadata and the image are
    readable. *)
Theorem blank_timestamp_fails_job (getbbox : str → Z * Z * Z * Z)
    (geolocator_reverse : Q * Q → result (option Location))
    (repr_float : Q → str) (f : file_env) (output_path : string)
    (exif_data : ExifDict) (date : str) (img : Image) :
  fe_piexif_load f = Ok exif_data →
  exif_data ≠ ∅ →
  get_date exif_data = Ok date →
  blank date = true →
  fe_image_open f = Ok img →
  (MAX_WIDTH < img_width img → fe_resize_error f = None) →
  process_image getbbox geolocator_reverse repr_float f output_path
  = Ok (Failed IndexError).
Proof.
  intros Hload Hne Hdate Hblank Hopen Hresize.
  assert (∀ coords location,
            render_and_save getbbox f output_path
              (caption_text repr_float date coords location)
            = Raise IndexError) as Hrender.
  { intros coords location. unfold render_and_save.
    rewrite Hopen. simpl.
    pose proof (caption_ok_blank_date repr_float date coords location Hblank)
      as Hok.
    destruct (Z.ltb_spec MAX_WIDTH (img_width img)) as [Hwide|_]; simpl.
    - rewrite (Hresize Hwide). simpl.
      pose proof (add_overlay_spec getbbox
                    {| img_width := MAX_WIDTH;
                       img_height :=
                         new_height (img_width img) (img_height img);
                       img_info_exif := img_info_exif img;
                       img_draws := img_draws img |}
                    (caption_text repr_float date coords location)
                    TEXT_COLOR SHADOW_COLOR) as Hspec.
      rewrite Hok in Hspec. by rewrite Hspec.
    - pose proof (add_overlay_spec getbbox img
                    (caption_text repr_float date coords location)
                    TEXT_COLOR SHADOW_COLOR) as Hspec.
      rewrite Hok in Hspec. by rewrite Hspec. }
  unfold process_image, get_exif_data. rewrite Hload.
  rewrite bool_decide_eq_false_2 by done. rewrite Hdate. simpl.
  destruct (get_gps_coords_total exif_data) as [coords ->]. simpl.
  destruct coords as [c|]; simpl.
  - destruct (reverse_geocode_total geolocator_reverse c) as [place ->].
    simpl. by rewrite Hrender.
  - by rewrite Hrender.
Qed.

Lemma blank_timestamp_fails_job_example :
  process_image fixed_pitch (geocoder_returns (Some location_new_york))
    repr_stub
    {| fe_file := "e.jpg"; fe_relative_path := "e.jpg";
       fe_piexif_load :=
         Ok {[ "Exif"%string :=
                 {[ piexif.DateTimeOriginal := PBytes (blit "   ") ]};
               "GPS"%string := gps_new_york ]};
       fe_image_open := Ok (blank_canvas 640 480);
       fe_output_dir_error := None;
       fe_resize_error := None; fe_makedirs_error := None;
       fe_save_error := None |}
    (output_path_of "e.jpg")
  = Ok (Failed IndexError).
Proof.
  by eapply (blank_timestamp_fails_job fixed_pitch _ repr_stub _ _ _
               (lit "   ") (blank_canvas 640 480)).
Defined.
